(** * Code-Dependency-Analysis: a shallow embedding of the extractor
    (parser.py), the loader's upsert (loader.py) and the analyzer's queries
    (analyzer.py), with their specification theorems. *)

From Stdlib Require Import List String ZArith Lia Bool.
From Stdlib Require Import Sorting.Permutation Sorting.Sorted.
Import ListNotations.

Open Scope string_scope.
Open Scope list_scope.
Set Warnings "-register-all".

(* ================================================================= *)
(** ** parser.py: the Python syntax tree the visitor walks *)

(** [ast.expr_context] *)
Inductive expr_context := Load | Store | Del.

(** The part of [ast.expr] the visitor distinguishes.  Every other node
    (BinOp, Call, Constant, Lambda, comprehensions, ...) is [OtherExpr]
    with its child expressions, which [generic_visit] walks in order. *)
Inductive expr :=
| Name (id : string) (ctx : expr_context) (lineno : Z)
| Tuple (elts : list expr) (ctx : expr_context)
| ListExpr (elts : list expr) (ctx : expr_context)
| Attribute (value : expr) (attr : string) (ctx : expr_context)
| Subscript (value slice : expr) (ctx : expr_context)
| Starred (value : expr) (ctx : expr_context)
| OtherExpr (children : list expr).

(** The part of [ast.stmt] the visitor distinguishes; every other statement
    is [OtherStmt] with its child expressions and child statements. *)
Inductive stmt :=
| Assign (targets : list expr) (value : expr) (lineno : Z)
| AugAssign (target : expr) (value : expr) (lineno : Z)
| OtherStmt (exprs : list expr) (body : list stmt).

(** An entry of [self.dependencies]:
    (assigned_var, used_var, line_number, filepath). *)
Definition dep : Type := (string * string * Z * string)%type.

Definition dep_pair (d : dep) : string * string :=
  let '(a, b, _, _) := d in (a, b).

(** [visit] on an expression, with [self.current_assign_target] = [cur].
    Only [visit_Name] records anything; every other node is walked by
    [generic_visit].  No expression contains a statement, so the target
    does not change while an expression is walked. *)
Fixpoint visit_expr (filepath : string) (cur : option string) (e : expr)
  : list dep :=
  let fix visit_all (es : list expr) : list dep :=
    match es with
    | [] => []
    | x :: r => visit_expr filepath cur x ++ visit_all r
    end in
  match e with
  | Name id ctx lineno =>
      (* if self.current_assign_target and isinstance(node.ctx, ast.Load) *)
      match cur, ctx with
      | Some t, Load =>
          if String.eqb t "" then [] else [(t, id, lineno, filepath)]
      | _, _ => []
      end
  | Tuple elts _ => visit_all elts
  | ListExpr elts _ => visit_all elts
  | Attribute value _ _ => visit_expr filepath cur value
  | Subscript value slice _ =>
      visit_expr filepath cur value ++ visit_expr filepath cur slice
  | Starred value _ => visit_expr filepath cur value
  | OtherExpr children => visit_all children
  end.

(** [visit_Assign] *)
Definition visit_Assign (filepath : string) (targets : list expr)
  (value : expr) : list dep :=
  match targets with
  | [Name id _ _] => visit_expr filepath (Some id) value
  | [Tuple telts _] =>
      match value with
      | Tuple velts _ =>
          List.concat (map (fun tv =>
                         match fst tv with
                         | Name id _ _ => visit_expr filepath (Some id) (snd tv)
                         | _ => []
                         end) (combine telts velts))
      | _ =>
          List.concat (map (fun t =>
                         match t with
                         | Name id _ _ => visit_expr filepath (Some id) value
                         | _ => []
                         end) telts)
      end
  | _ => []
  end.

(** [visit_AugAssign] *)
Definition visit_AugAssign (filepath : string) (target value : expr)
  (lineno : Z) : list dep :=
  match target with
  | Name assigned_var _ _ =>
      (assigned_var, assigned_var, lineno, filepath)
        :: visit_expr filepath (Some assigned_var) value
  | _ => []
  end.

(** [visit] on a statement: [self.current_assign_target] is [None] between
    assignments, so the child expressions of other statements record
    nothing; their child statements are visited in order. *)
Fixpoint visit_stmt (filepath : string) (s : stmt) : list dep :=
  match s with
  | Assign targets value _ => visit_Assign filepath targets value
  | AugAssign target value lineno => visit_AugAssign filepath target value lineno
  | OtherStmt exprs body =>
      List.concat (map (visit_expr filepath None) exprs)
        ++ List.concat (map (visit_stmt filepath) body)
  end.

Definition pair_eqb (p q : string * string) : bool :=
  String.eqb (fst p) (fst q) && String.eqb (snd p) (snd q).

(** The [seen]-set loop of [find_variable_deps]: keep the first entry of
    every (assigned_var, used_var) key. *)
Fixpoint unique_deps (seen : list (string * string)) (ds : list dep)
  : list dep :=
  match ds with
  | [] => []
  | d :: r =>
      if existsb (pair_eqb (dep_pair d)) seen then unique_deps seen r
      else d :: unique_deps (dep_pair d :: seen) r
  end.

(** [find_variable_deps] on a file that parsed to the module body [tree]. *)
Definition find_variable_deps (filepath : string) (tree : list stmt)
  : list dep :=
  unique_deps [] (List.concat (map (visit_stmt filepath) tree)).

(** The names an expression reads: its [Name] nodes in [Load] context. *)
Fixpoint loads (e : expr) : list string :=
  let fix loads_all (es : list expr) : list string :=
    match es with
    | [] => []
    | x :: r => loads x ++ loads_all r
    end in
  match e with
  | Name id Load _ => [id]
  | Name _ _ _ => []
  | Tuple elts _ => loads_all elts
  | ListExpr elts _ => loads_all elts
  | Attribute value _ _ => loads value
  | Subscript value slice _ => loads value ++ loads slice
  | Starred value _ => loads value
  | OtherExpr children => loads_all children
  end.

Definition is_name (e : expr) : bool :=
  match e with Name _ _ _ => true | _ => false end.

Definition is_tuple (e : expr) : bool :=
  match e with Tuple _ _ => true | _ => false end.

(** Every statement of a module body, nested ones included. *)
Fixpoint stmts_of (s : stmt) : list stmt :=
  s :: match s with
       | OtherStmt _ body => List.concat (map stmts_of body)
       | _ => []
       end.

(* ================================================================= *)
(** ** Induction principles for the nested syntax trees *)

Definition expr_ind' (P : expr -> Prop)
  (HName : forall id ctx ln, P (Name id ctx ln))
  (HTuple : forall elts ctx, Forall P elts -> P (Tuple elts ctx))
  (HList : forall elts ctx, Forall P elts -> P (ListExpr elts ctx))
  (HAttr : forall v a ctx, P v -> P (Attribute v a ctx))
  (HSub : forall v sl ctx, P v -> P sl -> P (Subscript v sl ctx))
  (HStar : forall v ctx, P v -> P (Starred v ctx))
  (HOther : forall cs, Forall P cs -> P (OtherExpr cs)) :
  forall e, P e :=
  fix go (e : expr) : P e :=
    let fix go_all (es : list expr) : Forall P es :=
      match es with
      | [] => Forall_nil P
      | x :: r => Forall_cons x (go x) (go_all r)
      end in
    match e with
    | Name id ctx ln => HName id ctx ln
    | Tuple elts ctx => HTuple elts ctx (go_all elts)
    | ListExpr elts ctx => HList elts ctx (go_all elts)
    | Attribute v a ctx => HAttr v a ctx (go v)
    | Subscript v sl ctx => HSub v sl ctx (go v) (go sl)
    | Starred v ctx => HStar v ctx (go v)
    | OtherExpr cs => HOther cs (go_all cs)
    end.

Definition stmt_ind' (P : stmt -> Prop)
  (HAssign : forall ts v ln, P (Assign ts v ln))
  (HAug : forall t v ln, P (AugAssign t v ln))
  (HOther : forall es body, Forall P body -> P (OtherStmt es body)) :
  forall s, P s :=
  fix go (s : stmt) : P s :=
    let fix go_all (ss : list stmt) : Forall P ss :=
      match ss with
      | [] => Forall_nil P
      | x :: r => Forall_cons x (go x) (go_all r)
      end in
    match s with
    | Assign ts v ln => HAssign ts v ln
    | AugAssign t v ln => HAug t v ln
    | OtherStmt es body => HOther es body (go_all body)
    end.

(* ================================================================= *)
(** ** The graph store (Neo4j) and loader.py *)

(** A [DEPENDS_ON] relationship with its [ON CREATE] properties. *)
Record rel := mk_rel {
  r_from : string;
  r_to : string;
  r_line_number : Z;
  r_filepath : string
}.

(** The database: [Variable] nodes by name and [DEPENDS_ON] relationships,
    both in creation order. *)
Record store := mk_store {
  nodes : list string;
  rels : list rel
}.

Definition empty_store : store := mk_store [] [].

Definition rel_pair (r : rel) : string * string := (r_from r, r_to r).

Definition rel_of_dep (d : dep) : rel :=
  let '(a, b, ln, fp) := d in mk_rel a b ln fp.

(** [MERGE (a:Variable {name: n})] *)
Definition merge_node (n : string) (ns : list string) : list string :=
  if existsb (String.eqb n) ns then ns else ns ++ [n].

(** First relationship of the pattern [(a)-[:DEPENDS_ON]->(b)]. *)
Definition find_rel (a b : string) (rs : list rel) : option rel :=
  find (fun r => pair_eqb (rel_pair r) (a, b)) rs.

(** One row of the [UNWIND $data as row] of
    [_batch_create_relationships]: [MERGE] both endpoints, then [MERGE] the
    relationship, setting line and file only [ON CREATE]. *)
Definition upsert_row (s : store) (d : dep) : store :=
  let '(a, b, ln, fp) := d in
  let ns := merge_node b (merge_node a (nodes s)) in
  match find_rel a b (rels s) with
  | Some _ => mk_store ns (rels s)
  | None => mk_store ns (rels s ++ [mk_rel a b ln fp])
  end.

(** [_batch_create_relationships]: the rows run in order inside one query,
    each [MERGE] seeing what the earlier rows created. *)
Definition batch_create_relationships (s : store) (ds : list dep) : store :=
  fold_left upsert_row ds s.

(** [load_from_file] on a file that parsed to [tree]: the number of
    dependencies returned and the store afterwards. *)
Definition load_from_file (s : store) (filepath : string) (tree : list stmt)
  : nat * store :=
  let deps := find_variable_deps filepath tree in
  match deps with
  | [] => (0, s)
  | _ => (List.length deps, batch_create_relationships s deps)
  end.

(* ================================================================= *)
(** ** Cypher: variable-length patterns and ORDER BY *)

Definition edge : Type := (string * string)%type.

(** The [(from, to)] pairs of the [DEPENDS_ON] relationships. *)
Definition edges (s : store) : list edge := map rel_pair (rels s).

(** Each element of a list with the list of the others (its relationship
    "used up"). *)
Fixpoint picks {A} (l : list A) : list (A * list A) :=
  match l with
  | [] => []
  | x :: r => (x, r) :: map (fun p => (fst p, x :: snd p)) (picks r)
  end.

(** The matches of [(cur)-[:DEPENDS_ON*]->(x)]: every path of length at
    least one that uses each relationship at most once (Cypher's
    relationship uniqueness), as the list of nodes after [cur].  [rem] are
    the relationships not used yet; each step uses one, so [fuel] =
    [length rem] suffices. *)
Fixpoint trails (fuel : nat) (rem : list edge) (cur : string)
  : list (list string) :=
  match fuel with
  | 0 => []
  | S f =>
      List.concat (map (fun p =>
        let '((a, b), rest) := p in
        if String.eqb a cur then [b] :: map (cons b) (trails f rest b)
        else []) (picks rem))
  end.

Definition var_trails (es : list edge) (start : string) : list (list string) :=
  trails (List.length es) es start.

(** Last node of a path that starts at [start] and continues with [t]. *)
Definition path_end (start : string) (t : list string) : string :=
  last t start.

(** Insertion sort on a boolean order, stable: the [ORDER BY]s whose key
    is total. *)
Fixpoint insert_by {A} (leb : A -> A -> bool) (x : A) (l : list A) : list A :=
  match l with
  | [] => [x]
  | y :: r => if leb x y then x :: y :: r else y :: insert_by leb x r
  end.

Fixpoint sort_by {A} (leb : A -> A -> bool) (l : list A) : list A :=
  match l with
  | [] => []
  | x :: r => insert_by leb x (sort_by leb r)
  end.

(** [RETURN DISTINCT]: keep the first of equal rows. *)
Fixpoint distinct_from {A} (eqb : A -> A -> bool) (seen l : list A)
  : list A :=
  match l with
  | [] => []
  | x :: r =>
      if existsb (eqb x) seen then distinct_from eqb seen r
      else x :: distinct_from eqb (x :: seen) r
  end.

Definition distinct {A} (eqb : A -> A -> bool) (l : list A) : list A :=
  distinct_from eqb [] l.

(** A row (name, depth) of the reachability queries. *)
Definition row_eqb (p q : string * nat) : bool :=
  String.eqb (fst p) (fst q) && Nat.eqb (snd p) (snd q).

(** [ORDER BY depth, name] *)
Definition row_leb (p q : string * nat) : bool :=
  Nat.ltb (snd p) (snd q)
  || (Nat.eqb (snd p) (snd q) && String.leb (fst p) (fst q)).

(** A Python dict from names, in insertion order: assigning an existing
    key keeps its position and replaces its value. *)
Fixpoint dict_set {V} (k : string) (v : V) (d : list (string * V))
  : list (string * V) :=
  match d with
  | [] => [(k, v)]
  | (k', v') :: r =>
      if String.eqb k k' then (k, v) :: r else (k', v') :: dict_set k v r
  end.

Fixpoint dict_get {V} (k : string) (d : list (string * V)) : option V :=
  match d with
  | [] => None
  | (k', v) :: r => if String.eqb k k' then Some v else dict_get k r
  end.

(* ================================================================= *)
(** ** analyzer.py: [find_dependencies] and [find_impact] *)

(** The rows of
    [MATCH path = (start {name: $var_name})-[:DEPENDS_ON*]->(x)
     WHERE x <> start RETURN DISTINCT x.name, length(path)
     ORDER BY depth, name]. *)
Definition reach_rows (es : list edge) (start : string) : list (string * nat) :=
  sort_by row_leb
    (distinct row_eqb
       (map (fun t => (path_end start t, List.length t))
          (filter (fun t => negb (String.eqb (path_end start t) start))
             (var_trails es start)))).

(** The result dictionary of [find_dependencies] / [find_impact]. *)
Record reach_result := mk_reach_result {
  variable : string;
  direct : list string;        (* direct_dependencies / directly_affected *)
  transitive : list string;    (* transitive_dependencies / transitively_affected *)
  total : nat;                 (* total_dependencies / total_affected *)
  all_vars : list string;      (* all_dependencies / affected_variables *)
  depths : list (string * nat)
}.

(** The Python code after the query: the list of names, the dict
    comprehension [{name: depth for record in records}] (a later record
    overwrites an earlier one), and the partition of the dict's items. *)
Definition reach_result_of (variable_name : string) (rows : list (string * nat))
  : reach_result :=
  let names := map fst rows in
  let ds := fold_left (fun d r => dict_set (fst r) (snd r) d) rows [] in
  mk_reach_result variable_name
    (map fst (filter (fun kv => Nat.eqb (snd kv) 1) ds))
    (map fst (filter (fun kv => Nat.ltb 1 (snd kv)) ds))
    (List.length names) names ds.

Definition find_dependencies (s : store) (variable_name : string)
  : reach_result :=
  reach_result_of variable_name (reach_rows (edges s) variable_name).

Definition reverse_edge (e : edge) : edge := (snd e, fst e).

(** [find_impact]: a match of [(dependent)-[:DEPENDS_ON*]->(start)] read
    backwards is a match from [start] over the reversed relationships,
    with the same length and the same relationships. *)
Definition find_impact (s : store) (variable_name : string) : reach_result :=
  reach_result_of variable_name
    (reach_rows (map reverse_edge (edges s)) variable_name).

(** Paths in the graph, for stating the claims. *)
Inductive reach (es : list edge) : string -> string -> Prop :=
| reach_one a b : In (a, b) es -> reach es a b
| reach_step a b c : In (a, b) es -> reach es b c -> reach es a c.

(** A walk [start -> t_1 -> ... -> t_k] along edges of [es]. *)
Fixpoint walk (es : list edge) (start : string) (t : list string) : Prop :=
  match t with
  | [] => True
  | b :: r => In (start, b) es /\ walk es b r
  end.

(** The edges a walk uses. *)
Fixpoint walk_edges (start : string) (t : list string) : list edge :=
  match t with
  | [] => []
  | b :: r => (start, b) :: walk_edges b r
  end.

(* ================================================================= *)
(** ** analyzer.py: [find_path] *)

(** The node lists of
    [MATCH path = (start {name: $from_var})-[:DEPENDS_ON*]->
                  (end {name: $to_var})]. *)
Definition path_rows (es : list edge) (from_var to_var : string)
  : list (list string) :=
  map (cons from_var)
    (filter (fun t => String.eqb (path_end from_var t) to_var)
       (var_trails es from_var)).

(** [find_path]: the rows in some order of non-decreasing length (the
    query fixes no order among equally long paths), then [LIMIT 20]. *)
Definition find_path_result (s : store) (from_var to_var : string)
  (paths : list (list string)) : Prop :=
  exists full,
    Permutation (path_rows (edges s) from_var to_var) full
    /\ Sorted (fun p q => List.length p <= List.length q) full
    /\ paths = firstn 20 full.

(* ================================================================= *)
(** ** analyzer.py: [detect_cycles] *)

(** The rows of
    [MATCH path = (start:Variable)-[:DEPENDS_ON*]->(start:Variable)]: the
    node lists of the closed paths from every node. *)
Definition cycle_rows (s : store) : list (list string) :=
  flat_map (fun n =>
              map (cons n)
                (filter (fun t => String.eqb (path_end n t) n)
                   (var_trails (edges s) n)))
    (nodes s).

(** The query has no [ORDER BY]: some order of the rows, then [LIMIT 100]. *)
Definition cycle_query_result (s : store) (records : list (list string))
  : Prop :=
  exists full, Permutation (cycle_rows s) full /\ records = firstn 100 full.

(** The loop over one record of the first pass of [detect_cycles]:
    [unique_cycle] with its set [seen]; [Some] when the record is appended
    to [cycles] and the loop breaks. *)
Fixpoint scan_cycle (unique_cycle : list string) (cycle : list string)
  : option (list string) :=
  match cycle with
  | [] => None
  | var :: r =>
      if negb (existsb (String.eqb var) unique_cycle) then
        scan_cycle (unique_cycle ++ [var]) r
      else
        match unique_cycle with
        | u0 :: _ :: _ =>
            (* elif var == unique_cycle[0] and len(unique_cycle) > 1 *)
            if String.eqb var u0 then Some unique_cycle
            else scan_cycle unique_cycle r
        | _ => scan_cycle unique_cycle r
        end
  end.

Definition first_pass (records : list (list string)) : list (list string) :=
  flat_map (fun c => match scan_cycle [] c with
                     | Some u => [u]
                     | None => []
                     end) records.

(** [graph = defaultdict(list)]; [graph[from].append(to)] per record. *)
Fixpoint dict_append (k v : string) (g : list (string * list string))
  : list (string * list string) :=
  match g with
  | [] => [(k, [v])]
  | (k', vs) :: r =>
      if String.eqb k k' then (k', vs ++ [v]) :: r else (k', vs) :: dict_append k v r
  end.

Definition build_graph (records : list edge) : list (string * list string) :=
  fold_left (fun g e => dict_append (fst e) (snd e) g) records [].

(** [graph.get(v, [])] *)
Definition successors (g : list (string * list string)) (v : string)
  : list string :=
  match dict_get v g with Some ws => ws | None => [] end.

(** The variables of [_tarjan_cycles] that [strongconnect] updates. *)
Record tarjan_state := mk_tstate {
  t_index : list (string * nat);
  t_lowlink : list (string * nat);
  t_stack : list string;            (* top first *)
  t_on_stack : list string;
  t_cycles : list (list string);
  t_index_counter : nat
}.

Definition get_nat (k : string) (d : list (string * nat)) : nat :=
  match dict_get k d with Some n => n | None => 0 end.

Definition set_lowlink (v : string) (n : nat) (st : tarjan_state)
  : tarjan_state :=
  mk_tstate (t_index st) (dict_set v n (t_lowlink st)) (t_stack st)
    (t_on_stack st) (t_cycles st) (t_index_counter st).

(** The [for w in graph.get(v, [])] loop of [strongconnect v], with the
    recursive call [sc]. *)
Fixpoint visit_successors (sc : string -> tarjan_state -> tarjan_state)
  (v : string) (ws : list string) (st : tarjan_state) : tarjan_state :=
  match ws with
  | [] => st
  | w :: ws' =>
      match dict_get w (t_index st) with
      | None =>
          let st' := sc w st in
          visit_successors sc v ws'
            (set_lowlink v (Nat.min (get_nat v (t_lowlink st'))
                                    (get_nat w (t_lowlink st'))) st')
      | Some iw =>
          if existsb (String.eqb w) (t_on_stack st) then
            visit_successors sc v ws'
              (set_lowlink v (Nat.min (get_nat v (t_lowlink st)) iw) st)
          else visit_successors sc v ws' st
      end
  end.

(** The [while True: w = stack.pop() ...] loop: the component in pop order,
    the remaining stack and [on_stack]. *)
Fixpoint pop_component (v : string) (stack on_stack component : list string)
  : list string * list string * list string :=
  match stack with
  | [] => (component, [], on_stack)
  | w :: r =>
      let on_stack' := remove string_dec w on_stack in
      let component' := component ++ [w] in
      if String.eqb w v then (component', r, on_stack')
      else pop_component v r on_stack' component'
  end.

(** [strongconnect]; [fuel] bounds the recursion depth, which is at most
    the number of nodes. *)
Fixpoint strongconnect (fuel : nat) (g : list (string * list string))
  (v : string) (st : tarjan_state) : tarjan_state :=
  match fuel with
  | 0 => st
  | S f =>
      let c := t_index_counter st in
      let st1 := mk_tstate (dict_set v c (t_index st)) (dict_set v c (t_lowlink st))
                   (v :: t_stack st) (v :: t_on_stack st) (t_cycles st) (S c) in
      let st2 := visit_successors (strongconnect f g) v (successors g v) st1 in
      if Nat.eqb (get_nat v (t_lowlink st2)) (get_nat v (t_index st2)) then
        let '(component, stack', on_stack') :=
          pop_component v (t_stack st2) (t_on_stack st2) [] in
        mk_tstate (t_index st2) (t_lowlink st2) stack' on_stack'
          (if Nat.ltb 1 (List.length component) then t_cycles st2 ++ [component]
           else t_cycles st2)
          (t_index_counter st2)
      else st2
  end.

Definition tarjan_init : tarjan_state := mk_tstate [] [] [] [] [] 0.

(** [_tarjan_cycles] on the rows of
    [MATCH (a)-[:DEPENDS_ON]->(b) RETURN a.name, b.name]. *)
Definition tarjan_cycles (records : list edge) : list (list string) :=
  let g := build_graph records in
  let fuel := S (2 * List.length records) in
  t_cycles
    (fold_left (fun st node =>
                  match dict_get node (t_index st) with
                  | Some _ => st
                  | None => strongconnect fuel g node st
                  end) (map fst g) tarjan_init).

Fixpoint list_eqb (l1 l2 : list string) : bool :=
  match l1, l2 with
  | [], [] => true
  | x :: r1, y :: r2 => String.eqb x y && list_eqb r1 r2
  | _, _ => false
  end.

(** The last loop of [detect_cycles]: drop a cycle whose sorted names were
    seen before. *)
Fixpoint unique_cycles (seen_cycles : list (list string))
  (cycles : list (list string)) : list (list string) :=
  match cycles with
  | [] => []
  | c :: r =>
      let key := sort_by String.leb c in
      if existsb (list_eqb key) seen_cycles then unique_cycles seen_cycles r
      else c :: unique_cycles (key :: seen_cycles) r
  end.

(** [detect_cycles], given the records of its two queries. *)
Definition detect_cycles (cycle_records : list (list string))
  (edge_records : list edge) : list (list string) :=
  unique_cycles [] (first_pass cycle_records ++ tarjan_cycles edge_records).

(* ================================================================= *)
(** ** analyzer.py: [get_metrics] and [find_unused_variables] *)

(** What [execute_query] gave for each of the seven queries of
    [get_metrics]: [None] when it raised, otherwise the records, each as
    the fields the code reads ([count]; [var] and [count]; [var]). *)
Record metrics_records := mk_mrecords {
  q_total_variables : option (list Z);
  q_total_dependencies : option (list Z);
  q_most_dependent : option (list (option string * option Z));
  q_most_dependencies : option (list (option string * option Z));
  q_isolated_variables : option (list (option string));
  q_root_variables : option (list (option string));
  q_leaf_variables : option (list (option string))
}.

(** The [metrics] dictionary. *)
Record metrics := mk_metrics {
  total_variables : Z;
  total_dependencies : Z;
  most_dependent : list (string * Z);
  most_dependencies : list (string * Z);
  isolated_variables : list (option string);
  root_variables : list (option string);
  leaf_variables : list (option string);
  circular_dependencies : nat;
  cycles : list (list string)
}.

(** [records[0]["count"] if records else 0], and [0] in the [except]. *)
Definition count_metric (r : option (list Z)) : Z :=
  match r with
  | Some (c :: _) => c
  | _ => 0%Z
  end.

(** The leaderboard branch: skip a record whose [var] is [None], a [None]
    count becomes 0; [[]] in the [except]. *)
Definition leaderboard_metric (r : option (list (option string * option Z)))
  : list (string * Z) :=
  match r with
  | None => []
  | Some records =>
      flat_map (fun rc =>
                  match fst rc with
                  | None => []
                  | Some var_name =>
                      [(var_name, match snd rc with Some c => c | None => 0%Z end)]
                  end) records
  end.

(** [[record["var"] for record in records]]; [[]] in the [except]. *)
Definition names_metric (r : option (list (option string)))
  : list (option string) :=
  match r with None => [] | Some records => records end.

(** [get_metrics]: [cycles] is what [self.detect_cycles()] returned, [None]
    when it raised; that call is outside the [try], so the exception leaves
    [get_metrics] ([None]). *)
Definition get_metrics (qs : metrics_records)
  (detected : option (list (list string))) : option metrics :=
  match detected with
  | None => None
  | Some cs =>
      Some (mk_metrics
              (count_metric (q_total_variables qs))
              (count_metric (q_total_dependencies qs))
              (leaderboard_metric (q_most_dependent qs))
              (leaderboard_metric (q_most_dependencies qs))
              (names_metric (q_isolated_variables qs))
              (names_metric (q_root_variables qs))
              (names_metric (q_leaf_variables qs))
              (List.length cs) cs)
  end.

(** [find_unused_variables]: the [var] of each record; [None] when the
    query raised (the exception propagates). *)
Definition find_unused_variables (r : option (list (option string)))
  : option (list (option string)) :=
  match r with
  | None => None
  | Some records => Some (map (fun var => var) records)
  end.

(** The seven answers with every failed query replaced by an empty
    result. *)
Definition fail_as_empty (qs : metrics_records) : metrics_records :=
  let d {A} (o : option (list A)) := match o with Some l => Some l | None => Some [] end in
  mk_mrecords (d (q_total_variables qs)) (d (q_total_dependencies qs))
    (d (q_most_dependent qs)) (d (q_most_dependencies qs))
    (d (q_isolated_variables qs)) (d (q_root_variables qs))
    (d (q_leaf_variables qs)).

(** Number of [DEPENDS_ON] relationships into / out of a node. *)
Definition in_degree (es : list edge) (n : string) : nat :=
  List.length (filter (fun e => String.eqb (snd e) n) es).

Definition out_degree (es : list edge) (n : string) : nat :=
  List.length (filter (fun e => String.eqb (fst e) n) es).

(** [MATCH (v:Variable)<-[:DEPENDS_ON]-(dependent) WITH v, count(dependent)]:
    one row per node with an incoming relationship. *)
Definition fan_in_rows (s : store) : list (string * Z) :=
  map (fun n => (n, Z.of_nat (in_degree (edges s) n)))
    (filter (fun n => Nat.ltb 0 (in_degree (edges s) n)) (nodes s)).

(** [MATCH (v:Variable)-[:DEPENDS_ON]->(dep) WITH v, count(dep)] *)
Definition fan_out_rows (s : store) : list (string * Z) :=
  map (fun n => (n, Z.of_nat (out_degree (edges s) n)))
    (filter (fun n => Nat.ltb 0 (out_degree (edges s) n)) (nodes s)).

(** [ORDER BY count DESC LIMIT 10]: the query fixes no order among rows
    with equal counts. *)
Definition leaderboard_query (rows out : list (string * Z)) : Prop :=
  exists full, Permutation rows full
    /\ Sorted (fun x y => (snd y <= snd x)%Z) full
    /\ out = firstn 10 full.

Definition leaderboard_records (out : list (string * Z))
  : list (option string * option Z) :=
  map (fun nc => (Some (fst nc), Some (snd nc))) out.

(** [MATCH (v:Variable) WHERE NOT (v)<-[:DEPENDS_ON]-() RETURN v.name],
    the query of both [root_variables] and [find_unused_variables]; it has
    no [ORDER BY]. *)
Definition root_rows (s : store) : list (option string) :=
  map Some (filter (fun n => Nat.eqb (in_degree (edges s) n) 0) (nodes s)).

(** A graph with a cycle through ["a"]: [a -> b -> a] and [a -> c]. *)
Definition st_c2 : store :=
  mk_store ["a"; "b"; "c"]
    [mk_rel "a" "b" 1 "f.py"; mk_rel "b" "a" 2 "f.py"; mk_rel "a" "c" 3 "f.py"].

(** A single edge [a -> b]. *)
Definition st_line : store := mk_store ["a"; "b"] [mk_rel "a" "b" 1 "f.py"].

(** Two nodes with in-degree 1: [a -> c] and [b -> d]. *)
Definition st_tie : store :=
  mk_store ["a"; "b"; "c"; "d"] [mk_rel "a" "c" 1 "f.py"; mk_rel "b" "d" 2 "f.py"].

(** Decidable equality of (assigned, used) pairs. *)
Definition pair_dec (p q : string * string) : {p = q} + {p <> q}.
Proof. decide equality; apply string_dec. Defined.

(** Every listed cycle has at least two names. *)
Definition cycles_ok (cs : list (list string)) : Prop :=
  forall c, In c cs -> 2 <= List.length c.

(** A graph whose only relationship is the self-loop [v -> v]. *)
Definition self_loop_store (v : string) (ln : Z) (fp : string) : store :=
  mk_store [v] [mk_rel v v ln fp].

(* ================================================================= *)
(** ** parser.py: where the recorded entries come from *)

(** The names an expression reads, each with the line of its occurrence:
    the [(node.id, node.lineno)] that [visit_Name] records. *)
Fixpoint load_sites (e : expr) : list (string * Z) :=
  let fix sites_all (es : list expr) : list (string * Z) :=
    match es with
    | [] => []
    | x :: r => load_sites x ++ sites_all r
    end in
  match e with
  | Name id Load lineno => [(id, lineno)]
  | Name _ _ _ => []
  | Tuple elts _ => sites_all elts
  | ListExpr elts _ => sites_all elts
  | Attribute value _ _ => load_sites value
  | Subscript value slice _ => load_sites value ++ load_sites slice
  | Starred value _ => load_sites value
  | OtherExpr children => sites_all children
  end.

(** [s] is an assignment statement whose plain-name target is [a] and
    which reads [b] on its right-hand side (or, for an augmented
    assignment, has [b = a]). *)
Definition assigns_from (s : stmt) (a b : string) : Prop :=
  match s with
  | Assign [Name a' _ _] v _ => a = a' /\ In b (loads v)
  | Assign [Tuple ts _] v _ => (exists c l, In (Name a c l) ts) /\ In b (loads v)
  | AugAssign (Name a' _ _) v _ => a = a' /\ (b = a \/ In b (loads v))
  | _ => False
  end.

(* ================================================================= *)
(** ** loader.py: the database as the loader leaves it *)

(** No two nodes with the same name, no two [DEPENDS_ON] relationships
    between the same pair, and both ends of a relationship are nodes. *)
Definition store_wf (s : store) : Prop :=
  NoDup (nodes s) /\ NoDup (edges s)
  /\ forall a b, In (a, b) (edges s) -> In a (nodes s) /\ In b (nodes s).

(** [clear_database]: [MATCH (n) DETACH DELETE n]. *)
Definition clear_database (s : store) : store := empty_store.

(** [load_from_directory] (for a path that is a directory), on the files
    [glob] listed in its order, each with its parse result: [None] when
    [load_from_file] raised in [find_variable_deps] (missing file, read or
    syntax error) before writing anything; the loop logs it and skips the
    file. *)
Definition load_from_directory (s : store)
  (files : list (string * option (list stmt))) : nat * store :=
  fold_left (fun acc f =>
               let '(total_relationships, st) := acc in
               match snd f with
               | Some tree =>
                   let '(count, st') := load_from_file st (fst f) tree in
                   (total_relationships + count, st')
               | None => (total_relationships, st)
               end) files (0, s).

(** The per-file counts [load_from_directory] adds up. *)
Definition file_count (f : string * option (list stmt)) : nat :=
  match snd f with
  | Some tree => List.length (find_variable_deps (fst f) tree)
  | None => 0
  end.

(** [MATCH (v:Variable) WHERE NOT (v)-[:DEPENDS_ON]-() RETURN v.name]: the
    nodes with no relationship in either direction. *)
Definition isolated_rows (s : store) : list (option string) :=
  map Some (filter (fun n => negb (existsb (fun e => String.eqb (fst e) n
                                                     || String.eqb (snd e) n)
                                           (edges s)))
              (nodes s)).

(* ================================================================= *)
(** ** analyzer.py: [get_critical_path] and [export_graph_json] *)

(** The node lists of
    [MATCH path = (start)-[:DEPENDS_ON*]->(end)
     WHERE NOT (start)<-[:DEPENDS_ON]-() AND NOT (end)-[:DEPENDS_ON]->()]. *)
Definition critical_rows (s : store) : list (list string) :=
  flat_map (fun n =>
              if Nat.eqb (in_degree (edges s) n) 0 then
                map (cons n)
                  (filter (fun t => Nat.eqb (out_degree (edges s) (path_end n t)) 0)
                     (var_trails (edges s) n))
              else []) (nodes s).

(** [get_critical_path]: [ORDER BY length(path) DESC LIMIT 1] (no order
    among equally long paths), then [records[0]["path_list"]] or [[]]. *)
Definition get_critical_path_result (s : store) (p : list string) : Prop :=
  exists full,
    Permutation (critical_rows s) full
    /\ Sorted (fun p q => List.length q <= List.length p) full
    /\ p = match firstn 1 full with q :: _ => q | [] => [] end.

(** [{"id": n, "label": n}] and [{"source": a, "target": b}] *)
Record json_node := mk_json_node { node_id : string; node_label : string }.
Record json_edge := mk_json_edge { source : string; target : string }.

(** The loop of [export_graph_json] over the records, with [nodes_set]. *)
Fixpoint export_loop (nodes_set : list string) (records : list edge)
  : list json_node * list json_edge :=
  match records with
  | [] => ([], [])
  | (from_var, to_var) :: r =>
      let new_from := negb (existsb (String.eqb from_var) nodes_set) in
      let set1 := if new_from then from_var :: nodes_set else nodes_set in
      let new_to := negb (existsb (String.eqb to_var) set1) in
      let set2 := if new_to then to_var :: set1 else set1 in
      let '(ns, es) := export_loop set2 r in
      ((if new_from then [mk_json_node from_var from_var] else [])
         ++ (if new_to then [mk_json_node to_var to_var] else []) ++ ns,
       mk_json_edge from_var to_var :: es)
  end.

(** [graph_data] of [export_graph_json], on the rows of
    [MATCH (a)-[r:DEPENDS_ON]->(b) RETURN a.name, b.name]. *)
Definition export_graph_json (records : list edge)
  : list json_node * list json_edge :=
  export_loop [] records.

(** A path [start -> t_1 -> ... -> t_k] (k >= 1) that uses each
    relationship of [es] at most once: what a [-[:DEPENDS_ON*]->] pattern
    matches. *)
Definition trail (es : list edge) (start : string) (t : list string) : Prop :=
  t <> [] /\ exists rest, Permutation es (walk_edges start t ++ rest).

(* ================================================================= *)
(** * Proofs *)

(** ** The extractor *)

Lemma visit_expr_pairs fp x e :
  map dep_pair (visit_expr fp (Some x) e)
  = if String.eqb x "" then [] else map (fun n => (x, n)) (loads e).
Proof.
  induction e using expr_ind'; simpl;
    try (induction H as [|a r Ha Hr IHr]; simpl;
         [destruct (String.eqb x ""); reflexivity
         | rewrite map_app, Ha, IHr; destruct (String.eqb x ""); simpl;
           rewrite ?map_app; reflexivity]).
  - destruct ctx; simpl; destruct (String.eqb x ""); reflexivity.
  - exact IHe.
  - rewrite map_app, IHe1, IHe2.
    destruct (String.eqb x ""); rewrite ?map_app; reflexivity.
  - exact IHe.
Qed.

Lemma visit_expr_none fp e : visit_expr fp None e = [].
Proof.
  induction e using expr_ind'; simpl; auto;
    try (induction H as [|a r Ha Hr IHr]; simpl; [reflexivity | rewrite Ha, IHr; reflexivity]).
  rewrite IHe1, IHe2; reflexivity.
Qed.

Lemma pair_eqb_true p q : pair_eqb p q = true <-> p = q.
Proof.
  destruct p as [a b], q as [c d]; unfold pair_eqb; simpl.
  rewrite andb_true_iff, !String.eqb_eq.
  split; [intros [-> ->]; reflexivity | intros H; inversion H; auto].
Qed.

Lemma existsb_pair_in p seen : existsb (pair_eqb p) seen = true <-> In p seen.
Proof.
  rewrite existsb_exists. split.
  - intros [q [Hq Heq]]. apply pair_eqb_true in Heq. subst. exact Hq.
  - intros H. exists p. split; [exact H | apply pair_eqb_true; reflexivity].
Qed.

Lemma unique_deps_in seen ds p :
  In p (map dep_pair (unique_deps seen ds))
  <-> In p (map dep_pair ds) /\ ~ In p seen.
Proof.
  revert seen. induction ds as [|d r IH]; intros seen; simpl.
  - tauto.
  - destruct (existsb (pair_eqb (dep_pair d)) seen) eqn:E.
    + apply existsb_pair_in in E. rewrite IH.
      split; [tauto|]. intros [[<- | H] Hn]; [contradiction | tauto].
    + simpl. rewrite IH. simpl.
      assert (~ In (dep_pair d) seen) as Hd.
      { intros H. apply existsb_pair_in in H. congruence. }
      destruct (pair_dec (dep_pair d) p) as [<- | Hne]; [tauto|].
      split; [intros [H | [H1 H2]]; [contradiction | tauto]|].
      intros [[H | H] Hs]; [contradiction|]. right. split; [exact H|].
      intros [H' | H']; [exact (Hne H') | exact (Hs H')].
Qed.

Lemma unique_deps_nodup seen ds : NoDup (map dep_pair (unique_deps seen ds)).
Proof.
  revert seen. induction ds as [|d r IH]; intros seen; simpl.
  - constructor.
  - destruct (existsb (pair_eqb (dep_pair d)) seen); [apply IH|].
    simpl. constructor; [|apply IH].
    rewrite unique_deps_in. simpl. tauto.
Qed.

Lemma find_variable_deps_in fp tree p :
  In p (map dep_pair (find_variable_deps fp tree))
  <-> In p (map dep_pair (List.concat (map (visit_stmt fp) tree))).
Proof. unfold find_variable_deps. rewrite unique_deps_in. simpl. tauto. Qed.

Lemma in_concat_map_pairs {A} (f : A -> list dep) xs x p :
  In x xs -> In p (map dep_pair (f x)) ->
  In p (map dep_pair (List.concat (map f xs))).
Proof.
  intros Hx Hp. rewrite concat_map, map_map.
  apply in_concat. exists (map dep_pair (f x)). split; [|exact Hp].
  apply (in_map (fun y => map dep_pair (f y))). exact Hx.
Qed.

Lemma visit_stmt_nested fp s s' p :
  In s' (stmts_of s) -> In p (map dep_pair (visit_stmt fp s')) ->
  In p (map dep_pair (visit_stmt fp s)).
Proof.
  revert s' p. induction s using stmt_ind'; intros s' p Hin Hp; simpl in Hin.
  - destruct Hin as [<- | []]; exact Hp.
  - destruct Hin as [<- | []]; exact Hp.
  - destruct Hin as [<- | Hin]; [exact Hp|].
    apply in_concat in Hin. destruct Hin as [l [Hl Hs']].
    apply in_map_iff in Hl. destruct Hl as [b [<- Hb]].
    rewrite Forall_forall in H. specialize (H b Hb s' p Hs' Hp).
    simpl. rewrite map_app, in_app_iff. right.
    eapply in_concat_map_pairs; eassumption.
Qed.

Lemma visit_program_nested fp prog s p :
  In s (List.concat (map stmts_of prog)) ->
  In p (map dep_pair (visit_stmt fp s)) ->
  In p (map dep_pair (List.concat (map (visit_stmt fp) prog))).
Proof.
  intros Hin Hp. apply in_concat in Hin. destruct Hin as [l [Hl Hs]].
  apply in_map_iff in Hl. destruct Hl as [t [<- Ht]].
  eapply in_concat_map_pairs; [exact Ht|].
  eapply visit_stmt_nested; eassumption.
Qed.

Lemma aug_assign_pairs fp x c l e ln :
  x <> "" ->
  map dep_pair (visit_stmt fp (AugAssign (Name x c l) e ln))
  = (x, x) :: map (fun n => (x, n)) (loads e).
Proof.
  intros Hx. simpl. rewrite visit_expr_pairs.
  destruct (String.eqb_spec x ""); [contradiction | reflexivity].
Qed.

(** C7: a compound assignment [x op= expr] contributes exactly the self-loop
    [(x, x)] and one edge [(x, n)] for every distinct name [n] read in
    [expr]: alone in a file these are exactly the extracted edges, each
    once; in any file (also nested inside other statements) all of them are
    among the extracted edges, and no (from, to) pair is extracted twice. *)
Theorem aug_assign_edges fp x c l e ln :
  x <> "" ->
  (forall p,
     In p (map dep_pair (find_variable_deps fp [AugAssign (Name x c l) e ln]))
     <-> p = (x, x) \/ (exists n, In n (loads e) /\ p = (x, n)))
  /\ (forall prog,
        In (AugAssign (Name x c l) e ln) (List.concat (map stmts_of prog)) ->
        NoDup (map dep_pair (find_variable_deps fp prog))
        /\ In (x, x) (map dep_pair (find_variable_deps fp prog))
        /\ (forall n, In n (loads e) ->
              In (x, n) (map dep_pair (find_variable_deps fp prog)))).
Proof.
  intros Hx. split.
  - intros p. rewrite find_variable_deps_in. cbn [map List.concat].
    rewrite app_nil_r, aug_assign_pairs by exact Hx. cbn [In].
    rewrite in_map_iff.
    split; (intros [H | H]; [left; congruence | right]).
    + destruct H as [n [<- Hn]]. exists n. auto.
    + destruct H as [n [Hn ->]]. exists n. auto.
  - intros prog Hin. split; [apply unique_deps_nodup|].
    split.
    + apply find_variable_deps_in. eapply visit_program_nested; [exact Hin|].
      rewrite aug_assign_pairs by exact Hx. left. reflexivity.
    + intros n Hn. apply find_variable_deps_in.
      eapply visit_program_nested; [exact Hin|].
      rewrite aug_assign_pairs by exact Hx. right.
      apply (in_map (fun n => (x, n))). exact Hn.
Qed.

Lemma aug_assign_edges_witness :
  "counter" <> ""
  /\ In ("counter", "base_rate")
       (map dep_pair (find_variable_deps "test_vars.py"
          [AugAssign (Name "counter" Store 27) (Name "base_rate" Load 27) 27])).
Proof.
  split; [discriminate|].
  apply (proj1 (aug_assign_edges "test_vars.py" "counter" Store 27
                  (Name "base_rate" Load 27) 27 ltac:(discriminate))).
  right. exists "base_rate". split; [left; reflexivity | reflexivity].
Defined.

Lemma visit_expr_in_pair fp x e d :
  In d (visit_expr fp (Some x) e) ->
  fst (dep_pair d) = x /\ In (snd (dep_pair d)) (loads e).
Proof.
  intros Hd. apply (in_map dep_pair) in Hd. rewrite visit_expr_pairs in Hd.
  destruct (String.eqb x ""); [destruct Hd|].
  apply in_map_iff in Hd. destruct Hd as [n [Hn Hin]].
  rewrite <- Hn. simpl. auto.
Qed.

(** C10: an assignment whose single target is neither a plain name nor a
    tuple (an attribute, a subscript, a list, a starred target) yields no
    edge at all, so every name its right-hand side reads is dropped; in a
    tuple target, every edge comes from a plain-name element (paired with
    its positional value when the right-hand side is a tuple literal, with
    the whole right-hand side otherwise), so other elements yield none. *)
Theorem assign_unhandled_target_no_edges fp :
  (forall t v ln,
     is_name t = false -> is_tuple t = false ->
     visit_stmt fp (Assign [t] v ln) = []
     /\ find_variable_deps fp [Assign [t] v ln] = [])
  /\ (forall elts c v ln d,
        In d (visit_stmt fp (Assign [Tuple elts c] v ln)) ->
        exists x cx lx rhs,
          fst (dep_pair d) = x /\ In (snd (dep_pair d)) (loads rhs)
          /\ match v with
             | Tuple velts _ => In (Name x cx lx, rhs) (combine elts velts)
             | _ => In (Name x cx lx) elts /\ rhs = v
             end).
Proof.
  split.
  - intros t v ln Hn Ht.
    assert (visit_stmt fp (Assign [t] v ln) = []) as H0.
    { destruct t; try discriminate; reflexivity. }
    split; [exact H0|]. unfold find_variable_deps. cbn [map List.concat].
    rewrite H0. reflexivity.
  - intros elts c v ln d Hd. simpl in Hd.
    destruct v as [ | velts vc | | | | | ];
      try (apply in_concat in Hd; destruct Hd as [l [Hl Hd]];
           apply in_map_iff in Hl; destruct Hl as [t [<- Ht]];
           destruct t as [x cx lx | | | | | |]; try destruct Hd;
           destruct (visit_expr_in_pair _ _ _ _ Hd) as [H1 H2];
           eexists x, cx, lx, _; split; [exact H1|]; split; [exact H2|];
           split; [exact Ht | reflexivity]).
    apply in_concat in Hd. destruct Hd as [l [Hl Hd]].
    apply in_map_iff in Hl. destruct Hl as [[t rhs] [<- Ht]]. simpl in Hd.
    destruct t as [x cx lx | | | | | |]; try destruct Hd.
    destruct (visit_expr_in_pair _ _ _ _ Hd) as [H1 H2].
    exists x, cx, lx, rhs. auto.
Qed.

Lemma assign_unhandled_target_no_edges_witness :
  is_name (Attribute (Name "obj" Load 3) "a" Store) = false
  /\ is_tuple (Attribute (Name "obj" Load 3) "a" Store) = false
  /\ find_variable_deps "f.py"
       [Assign [Attribute (Name "obj" Load 3) "a" Store]
               (OtherExpr [Name "y" Load 3; Name "z" Load 3]) 3] = [].
Proof.
  split; [reflexivity|]. split; [reflexivity|].
  apply (proj1 (assign_unhandled_target_no_edges "f.py")); reflexivity.
Defined.

(** ** The loader *)

Lemma merge_node_in n m ns : In m (merge_node n ns) <-> m = n \/ In m ns.
Proof.
  unfold merge_node. destruct (existsb (String.eqb n) ns) eqn:E.
  - apply existsb_exists in E. destruct E as [k [Hk Heq]].
    apply String.eqb_eq in Heq. subst k. split; [tauto|].
    intros [-> | H]; assumption.
  - rewrite in_app_iff. simpl. split.
    + intros [H | [H | []]]; [right; exact H | left; symmetry; exact H].
    + intros [-> | H]; [right; left; reflexivity | left; exact H].
Qed.

Lemma merge_node_present n ns : In n ns -> merge_node n ns = ns.
Proof.
  intros H. unfold merge_node.
  replace (existsb (String.eqb n) ns) with true; [reflexivity|].
  symmetry. apply existsb_exists. exists n. split; [exact H | apply String.eqb_refl].
Qed.

Lemma find_rel_app a b rs r :
  find_rel a b (rs ++ [r])
  = match find_rel a b rs with
    | Some x => Some x
    | None => if pair_eqb (rel_pair r) (a, b) then Some r else None
    end.
Proof.
  unfold find_rel. induction rs as [|x rs IH]; simpl.
  - destruct (pair_eqb (rel_pair r) (a, b)); reflexivity.
  - destruct (pair_eqb (rel_pair x) (a, b)); [reflexivity | exact IH].
Qed.

(** A store that already holds both endpoints and the relationship of every
    row is left unchanged by the batch. *)
Lemma batch_present s ds :
  (forall d, In d ds ->
     In (fst (dep_pair d)) (nodes s) /\ In (snd (dep_pair d)) (nodes s)
     /\ find_rel (fst (dep_pair d)) (snd (dep_pair d)) (rels s) <> None) ->
  batch_create_relationships s ds = s.
Proof.
  unfold batch_create_relationships. revert s.
  induction ds as [|d ds IH]; intros s H; simpl; [reflexivity|].
  assert (upsert_row s d = s) as ->; [|apply IH; intros; apply H; simpl; auto].
  destruct (H d (or_introl eq_refl)) as [Ha [Hb Hr]].
  destruct s as [ns rs], d as [[[a b] ln] fp]; simpl in *.
  rewrite (merge_node_present a ns Ha), (merge_node_present b ns Hb).
  destruct (find_rel a b rs); [reflexivity | contradiction].
Qed.

(** Nodes and relationships once created stay. *)
Lemma upsert_row_mono s d :
  incl (nodes s) (nodes (upsert_row s d))
  /\ forall a b, find_rel a b (rels s) <> None ->
       find_rel a b (rels (upsert_row s d)) = find_rel a b (rels s).
Proof.
  destruct s as [ns rs], d as [[[a b] ln] fp]. unfold upsert_row. simpl.
  split.
  - intros m Hm. destruct (find_rel a b rs); simpl;
      apply merge_node_in; right; apply merge_node_in; right; exact Hm.
  - intros x y Hxy. destruct (find_rel a b rs); simpl; [reflexivity|].
    rewrite find_rel_app. destruct (find_rel x y rs); [reflexivity | congruence].
Qed.

Lemma batch_mono s ds :
  incl (nodes s) (nodes (batch_create_relationships s ds))
  /\ forall a b, find_rel a b (rels s) <> None ->
       find_rel a b (rels (batch_create_relationships s ds))
       = find_rel a b (rels s).
Proof.
  unfold batch_create_relationships. revert s.
  induction ds as [|d ds IH]; intros s; simpl.
  - split; [intros m Hm; exact Hm | reflexivity].
  - destruct (upsert_row_mono s d) as [Hn Hr].
    destruct (IH (upsert_row s d)) as [Hn' Hr']. split.
    + intros m Hm. apply Hn', Hn, Hm.
    + intros a b Hab. rewrite Hr'; [apply Hr, Hab|]. rewrite Hr; exact Hab.
Qed.

Lemma upsert_row_self s d :
  In (fst (dep_pair d)) (nodes (upsert_row s d))
  /\ In (snd (dep_pair d)) (nodes (upsert_row s d))
  /\ find_rel (fst (dep_pair d)) (snd (dep_pair d)) (rels (upsert_row s d))
     <> None.
Proof.
  destruct s as [ns rs], d as [[[a b] ln] fp]. unfold upsert_row. simpl.
  assert (In a (merge_node b (merge_node a ns))
          /\ In b (merge_node b (merge_node a ns))) as [Ha Hb].
  { rewrite !merge_node_in. tauto. }
  destruct (find_rel a b rs) eqn:E; simpl.
  - rewrite E. repeat split; auto; discriminate.
  - rewrite find_rel_app, E. unfold rel_pair; simpl.
    replace (pair_eqb (a, b) (a, b)) with true
      by (symmetry; apply pair_eqb_true; reflexivity).
    repeat split; auto; discriminate.
Qed.

Lemma batch_covers s ds d :
  In d ds ->
  In (fst (dep_pair d)) (nodes (batch_create_relationships s ds))
  /\ In (snd (dep_pair d)) (nodes (batch_create_relationships s ds))
  /\ find_rel (fst (dep_pair d)) (snd (dep_pair d))
       (rels (batch_create_relationships s ds)) <> None.
Proof.
  unfold batch_create_relationships. revert s.
  induction ds as [|d' ds IH]; intros s Hin; [destruct Hin|].
  simpl. destruct Hin as [<- | Hin]; [|apply IH, Hin].
  destruct (upsert_row_self s d') as [Ha [Hb Hr]].
  destruct (batch_mono (upsert_row s d') ds) as [Hn Hr'].
  unfold batch_create_relationships in Hn, Hr'.
  repeat split; [apply Hn, Ha | apply Hn, Hb | rewrite Hr'; exact Hr].
Qed.

Lemma batch_find_rel s ds a b :
  find_rel a b (rels (batch_create_relationships s ds))
  = match find_rel a b (rels s) with
    | Some r => Some r
    | None =>
        option_map rel_of_dep
          (find (fun d => pair_eqb (dep_pair d) (a, b)) ds)
    end.
Proof.
  unfold batch_create_relationships. revert s.
  induction ds as [|d ds IH]; intros s; simpl.
  - destruct (find_rel a b (rels s)); reflexivity.
  - rewrite IH. destruct s as [ns rs], d as [[[x y] ln] fp].
    unfold upsert_row. simpl.
    destruct (pair_eqb (x, y) (a, b)) eqn:Exy.
    + apply pair_eqb_true in Exy. inversion Exy; subst x y.
      destruct (find_rel a b rs) eqn:E; simpl; [rewrite E; reflexivity|].
      rewrite find_rel_app, E. unfold rel_pair; simpl.
      rewrite (proj2 (pair_eqb_true (a, b) (a, b)) eq_refl). reflexivity.
    + destruct (find_rel x y rs) eqn:E; simpl; [reflexivity|].
      rewrite find_rel_app. unfold rel_pair; simpl. rewrite Exy.
      destruct (find_rel a b rs); reflexivity.
Qed.

(** C6: loading the same file a second time leaves the store exactly as
    the first load left it (so the same (from, to) edges and the same edge
    count), and the upsert keeps, for every (from, to) pair, the line/file
    metadata of its first observation: the relationship already in the
    store if there was one, otherwise the first row of the batch with that
    pair; later rows' metadata is discarded. *)
Theorem load_twice_idempotent :
  (forall s fp tree,
     snd (load_from_file (snd (load_from_file s fp tree)) fp tree)
     = snd (load_from_file s fp tree)
     /\ map rel_pair
          (rels (snd (load_from_file (snd (load_from_file s fp tree)) fp tree)))
        = map rel_pair (rels (snd (load_from_file s fp tree))))
  /\ (forall s ds a b,
        find_rel a b (rels (batch_create_relationships s ds))
        = match find_rel a b (rels s) with
          | Some r => Some r
          | None =>
              option_map rel_of_dep
                (find (fun d => pair_eqb (dep_pair d) (a, b)) ds)
          end).
Proof.
  split; [|exact batch_find_rel].
  intros s fp tree.
  assert (snd (load_from_file (snd (load_from_file s fp tree)) fp tree)
          = snd (load_from_file s fp tree)) as H; [|split; [exact H | rewrite H; reflexivity]].
  unfold load_from_file.
  destruct (find_variable_deps fp tree) as [|d0 ds0]; [reflexivity|].
  change (batch_create_relationships
            (batch_create_relationships s (d0 :: ds0)) (d0 :: ds0)
          = batch_create_relationships s (d0 :: ds0)).
  apply batch_present. intros d Hd. apply batch_covers. exact Hd.
Qed.

(** ** Variable-length matches *)

Lemma picks_in_inv (l : list edge) x rest :
  In (x, rest) (picks l) -> In x l /\ incl rest l.
Proof.
  revert x rest. induction l as [|y r IH]; intros x rest H; simpl in H.
  - destruct H.
  - destruct H as [H | H].
    + inversion H; subst. split; [left; reflexivity | intros z Hz; right; exact Hz].
    + apply in_map_iff in H. destruct H as [[x' rest'] [Heq Hin]].
      simpl in Heq. inversion Heq; subst.
      destruct (IH _ _ Hin) as [H1 H2]. split; [right; exact H1|].
      intros z [<- | Hz]; [left; reflexivity | right; apply H2, Hz].
Qed.

Lemma picks_complete (l : list edge) x :
  In x l ->
  exists rest, In (x, rest) (picks l)
               /\ forall y, In y l -> y <> x -> In y rest.
Proof.
  induction l as [|y r IH]; intros H; [destruct H|].
  destruct (pair_dec y x) as [-> | Hne].
  - exists r. split; [left; reflexivity|].
    intros z [<- | Hz] Hzx; [contradiction | exact Hz].
  - destruct H as [-> | H]; [contradiction|].
    destruct (IH H) as [rest [Hin Hrest]]. exists (y :: rest). split.
    + right. apply (in_map (fun p => (fst p, y :: snd p))) in Hin. exact Hin.
    + intros z [<- | Hz] Hzx; [left; reflexivity | right; apply Hrest; assumption].
Qed.

Lemma in_trails_step fuel rem cur t :
  In t (trails (S fuel) rem cur)
  <-> exists b rest, In ((cur, b), rest) (picks rem)
       /\ (t = [b] \/ exists t', t = b :: t' /\ In t' (trails fuel rest b)).
Proof.
  simpl. rewrite in_concat. split.
  - intros [l [Hl Ht]]. apply in_map_iff in Hl.
    destruct Hl as [[[a b] rest] [<- Hp]].
    destruct (String.eqb_spec a cur) as [-> | Hne]; [|destruct Ht].
    exists b, rest. split; [exact Hp|].
    destruct Ht as [<- | Ht]; [left; reflexivity|].
    right. apply in_map_iff in Ht. destruct Ht as [t' [<- Ht']].
    exists t'. split; [reflexivity | exact Ht'].
  - intros [b [rest [Hp Ht]]].
    exists (if String.eqb cur cur then [b] :: map (cons b) (trails fuel rest b)
            else []).
    rewrite String.eqb_refl. split.
    + apply in_map_iff. exists ((cur, b), rest). rewrite String.eqb_refl.
      split; [reflexivity | exact Hp].
    + destruct Ht as [-> | [t' [-> Ht']]]; [left; reflexivity|].
      right. apply in_map. exact Ht'.
Qed.

Lemma walk_incl es es' s t : incl es es' -> walk es s t -> walk es' s t.
Proof.
  intros Hi. revert s. induction t as [|b r IH]; intros s H; simpl in *; auto.
  destruct H as [H1 H2]. split; [apply Hi, H1 | apply IH, H2].
Qed.

Lemma trails_sound fuel rem cur t :
  In t (trails fuel rem cur) -> t <> [] /\ walk rem cur t.
Proof.
  revert rem cur t. induction fuel as [|f IH]; intros rem cur t H; [destruct H|].
  apply in_trails_step in H. destruct H as [b [rest [Hp Ht]]].
  destruct (picks_in_inv _ _ _ Hp) as [Hin Hincl].
  destruct Ht as [-> | [t' [-> Ht']]].
  - split; [discriminate | simpl; auto].
  - split; [discriminate|]. simpl. split; [exact Hin|].
    apply (walk_incl rest); [exact Hincl|]. apply (IH _ _ _ Ht').
Qed.

Lemma last_cons_nonempty (b : string) r d :
  r <> [] -> last (b :: r) d = last r b.
Proof.
  intros H. destruct r as [|c r]; [contradiction|].
  simpl. clear H. revert c. induction r as [|x r IH]; intros c; [reflexivity|].
  simpl. specialize (IH x). simpl in IH. destruct r; exact IH.
Qed.

Lemma last_default_irrelevant (r : list string) d d' :
  r <> [] -> last r d = last r d'.
Proof.
  induction r as [|x r IH]; intros H; [contradiction|].
  destruct r as [|y r]; [reflexivity|]. simpl in *. apply IH. discriminate.
Qed.

Lemma walk_reach es s t :
  t <> [] -> walk es s t -> reach es s (path_end s t).
Proof.
  unfold path_end. revert s. induction t as [|b r IH]; intros s Hne H;
    [contradiction|].
  destruct H as [Hsb Hw]. destruct r as [|c r].
  - apply reach_one. exact Hsb.
  - rewrite last_cons_nonempty by discriminate.
    apply (reach_step es s b); [exact Hsb|]. apply IH; [discriminate | exact Hw].
Qed.

Lemma walk_transfer rem rest c x r :
  (forall e, In e rem -> fst e <> c -> In e rest) ->
  ~ In c (x :: r) -> walk rem x r -> walk rest x r.
Proof.
  intros Hre. revert x. induction r as [|y r IH]; intros x Hc Hw; simpl in *; auto.
  destruct Hw as [H1 H2]. split.
  - apply Hre; [exact H1|]. simpl. intros ->. apply Hc. left. reflexivity.
  - apply IH; [|exact H2]. intros H. apply Hc. right. exact H.
Qed.

Lemma walk_edges_incl es s t : walk es s t -> incl (walk_edges s t) es.
Proof.
  revert s. induction t as [|b r IH]; intros s H; simpl in *.
  - intros e [].
  - destruct H as [H1 H2]. intros e [<- | He]; [exact H1 | apply (IH b H2), He].
Qed.

Lemma walk_edges_length s t : List.length (walk_edges s t) = List.length t.
Proof.
  revert s. induction t as [|b r IH]; intros s; simpl; [reflexivity | rewrite IH; reflexivity].
Qed.

Lemma walk_edges_src s t e : In e (walk_edges s t) -> In (fst e) (s :: t).
Proof.
  revert s. induction t as [|b r IH]; intros s H; simpl in *; [destruct H|].
  destruct H as [<- | H]; [left; reflexivity|]. right. apply (IH b H).
Qed.

Lemma walk_edges_nodup s t : NoDup (s :: t) -> NoDup (walk_edges s t).
Proof.
  revert s. induction t as [|b r IH]; intros s H; simpl; [constructor|].
  constructor.
  - intros Hin. apply walk_edges_src in Hin. simpl in Hin.
    inversion H; subst. apply H2. exact Hin.
  - apply IH. inversion H; subst. exact H3.
Qed.

Lemma simple_walk_length es s t :
  walk es s t -> NoDup (s :: t) -> List.length t <= List.length es.
Proof.
  intros Hw Hn. rewrite <- (walk_edges_length s t).
  apply NoDup_incl_length; [apply walk_edges_nodup, Hn | apply walk_edges_incl, Hw].
Qed.

Lemma trails_complete fuel rem cur t :
  t <> [] -> walk rem cur t -> NoDup (cur :: t) -> List.length t <= fuel ->
  In t (trails fuel rem cur).
Proof.
  revert fuel rem cur. induction t as [|b r IH]; intros fuel rem cur Hne Hw Hn Hf;
    [contradiction|].
  destruct fuel as [|f]; [simpl in Hf; lia|].
  destruct Hw as [Hcb Hw].
  destruct (picks_complete rem (cur, b) Hcb) as [rest [Hp Hrest]].
  apply in_trails_step. exists b, rest. split; [exact Hp|].
  destruct r as [|c r]; [left; reflexivity|]. right.
  exists (c :: r). split; [reflexivity|].
  apply IH; [discriminate | | inversion Hn; assumption | simpl in *; lia].
  apply (walk_transfer rem rest cur); [| inversion Hn; assumption | exact Hw].
  intros e He Hfst. apply Hrest; [exact He|]. intros ->. apply Hfst. reflexivity.
Qed.

Lemma walk_app es s q1 x q2 : walk es s (q1 ++ x :: q2) -> walk es x q2.
Proof.
  revert s. induction q1 as [|y q1 IH]; intros s H; simpl in H.
  - apply H.
  - apply (IH y), H.
Qed.

Lemma last_app_nonempty (l1 l2 : list string) d :
  l2 <> [] -> last (l1 ++ l2) d = last l2 d.
Proof.
  intros H. induction l1 as [|x l1 IH]; [reflexivity|].
  simpl. rewrite <- IH. destruct (l1 ++ l2) eqn:E; [|reflexivity].
  apply app_eq_nil in E. destruct E. contradiction.
Qed.

Lemma reach_simple es a c :
  reach es a c -> a <> c ->
  exists t, t <> [] /\ walk es a t /\ path_end a t = c /\ NoDup (a :: t).
Proof.
  unfold path_end. induction 1 as [a b Hab | a b c Hab Hr IH]; intros Hac.
  - exists [b]. repeat split; simpl; auto; [discriminate|].
    constructor; [simpl; intros [H | []]; congruence | constructor; [intros [] | constructor]].
  - destruct (string_dec b c) as [<- | Hbc].
    + exists [b]. repeat split; simpl; auto; [discriminate|].
      constructor; [simpl; intros [H | []]; congruence | constructor; [intros [] | constructor]].
    + destruct (IH Hbc) as [t' [Ht'ne [Hw' [He' Hn']]]].
      destruct (in_dec string_dec a (b :: t')) as [Hin | Hnin].
      * apply in_split in Hin. destruct Hin as [q1 [q2 Hq]].
        assert (q2 <> []) as Hq2.
        { intros ->. apply Hac. rewrite <- He', <- (last_cons_nonempty b t' a Ht'ne).
          rewrite Hq. rewrite last_last. reflexivity. }
        exists q2. split; [exact Hq2|]. split.
        { apply (walk_app es a q1). rewrite <- Hq. simpl. auto. }
        split.
        { rewrite <- He', <- (last_cons_nonempty b t' a Ht'ne), Hq.
          rewrite last_app_nonempty by discriminate.
          rewrite last_cons_nonempty by exact Hq2. reflexivity. }
        { rewrite Hq in Hn'. apply NoDup_app_remove_l in Hn'. exact Hn'. }
      * exists (b :: t'). split; [discriminate|]. split; [simpl; auto|].
        split; [rewrite last_cons_nonempty by exact Ht'ne; exact He'|].
        constructor; [exact Hnin | exact Hn'].
Qed.

(** ** Sorting, DISTINCT and the result dictionary *)

Lemma insert_by_perm {A} (leb : A -> A -> bool) x l :
  Permutation (insert_by leb x l) (x :: l).
Proof.
  induction l as [|y r IH]; simpl; [reflexivity|].
  destruct (leb x y); [reflexivity|].
  rewrite IH. apply perm_swap.
Qed.

Lemma sort_by_perm {A} (leb : A -> A -> bool) l :
  Permutation (sort_by leb l) l.
Proof.
  induction l as [|x r IH]; simpl; [reflexivity|].
  rewrite insert_by_perm, IH. reflexivity.
Qed.

Lemma distinct_from_in {A} (eqb : A -> A -> bool) seen l x :
  (forall a b, eqb a b = true <-> a = b) ->
  In x (distinct_from eqb seen l) <-> In x l /\ ~ In x seen.
Proof.
  intros Heq. revert seen. induction l as [|y r IH]; intros seen; simpl; [tauto|].
  destruct (existsb (eqb y) seen) eqn:E.
  - rewrite IH. apply existsb_exists in E. destruct E as [z [Hz Hyz]].
    apply Heq in Hyz. subst z. split; [tauto|].
    intros [[<- | H] Hn]; [contradiction | tauto].
  - simpl. rewrite IH. simpl.
    assert (~ In y seen) as Hy.
    { intros H. assert (existsb (eqb y) seen = true) as E'; [|congruence].
      apply existsb_exists. exists y. split; [exact H | apply Heq; reflexivity]. }
    split.
    + intros [<- | [H1 H2]]; [tauto|]. split; [right; exact H1|].
      intros H. apply H2. right. exact H.
    + intros [H1 H2]. destruct (eqb y x) eqn:Eyx.
      * left. apply Heq, Eyx.
      * right. assert (y <> x) as Hne by (intros Hyx; apply Heq in Hyx; congruence).
        destruct H1 as [H1 | H1]; [contradiction|]. split; [exact H1|].
        intros [H | H]; [exact (Hne H) | exact (H2 H)].
Qed.

Lemma row_eqb_true p q : row_eqb p q = true <-> p = q.
Proof.
  destruct p as [a n], q as [b m]; unfold row_eqb; simpl.
  rewrite andb_true_iff, String.eqb_eq, Nat.eqb_eq.
  split; [intros [-> ->]; reflexivity | intros H; inversion H; auto].
Qed.

Lemma dict_set_keys {V} k k' (v : V) d :
  In k (map fst (dict_set k' v d)) <-> k = k' \/ In k (map fst d).
Proof.
  induction d as [|[k0 v0] r IH]; simpl; [intuition congruence|].
  destruct (String.eqb_spec k' k0) as [-> | Hne]; simpl; [intuition congruence|].
  rewrite IH. intuition congruence.
Qed.

Lemma fold_dict_keys {V} (rows : list (string * V)) d0 k :
  In k (map fst (fold_left (fun d r => dict_set (fst r) (snd r) d) rows d0))
  <-> In k (map fst rows) \/ In k (map fst d0).
Proof.
  revert d0. induction rows as [|[k1 v1] r IH]; intros d0; simpl; [tauto|].
  rewrite IH, dict_set_keys. simpl. intuition congruence.
Qed.

Lemma reach_rows_in es v n k :
  In (n, k) (reach_rows es v)
  <-> exists t, In t (var_trails es v) /\ path_end v t = n /\ n <> v
                /\ List.length t = k.
Proof.
  unfold reach_rows. split.
  - intros H. apply (Permutation_in _ (sort_by_perm _ _)) in H.
    unfold distinct in H. apply distinct_from_in in H; [|exact row_eqb_true].
    destruct H as [H _]. apply in_map_iff in H. destruct H as [t [Heq Ht]].
    apply filter_In in Ht. destruct Ht as [Ht Hne].
    inversion Heq; subst. exists t. repeat split; auto.
    intros He. rewrite He, String.eqb_refl in Hne. discriminate.
  - intros [t [Ht [He [Hne Hk]]]].
    apply (Permutation_in _ (Permutation_sym (sort_by_perm _ _))).
    unfold distinct. apply distinct_from_in; [exact row_eqb_true|].
    split; [|intros []]. apply in_map_iff. exists t. split; [subst; reflexivity|].
    apply filter_In. split; [exact Ht|]. rewrite He.
    destruct (String.eqb_spec n v); [contradiction | reflexivity].
Qed.

(** The names of a reachability result, its dictionary's keys, and its
    direct and transitive lists are names of matched paths' end nodes other
    than the start node. *)
Lemma reach_result_names es v n :
  (In n (all_vars (reach_result_of v (reach_rows es v)))
   <-> exists t, In t (var_trails es v) /\ path_end v t = n /\ n <> v)
  /\ (In n (map fst (depths (reach_result_of v (reach_rows es v))))
      <-> In n (all_vars (reach_result_of v (reach_rows es v))))
  /\ (In n (direct (reach_result_of v (reach_rows es v)))
      \/ In n (transitive (reach_result_of v (reach_rows es v))) ->
      In n (map fst (depths (reach_result_of v (reach_rows es v))))).
Proof.
  unfold reach_result_of; simpl. split; [|split].
  - rewrite in_map_iff. split.
    + intros [[n' k] [Hn Hin]]. simpl in Hn. subst n'.
      apply reach_rows_in in Hin. destruct Hin as [t [Ht [He [Hne _]]]]. eauto.
    + intros [t [Ht [He Hne]]]. exists (n, List.length t). split; [reflexivity|].
      apply reach_rows_in. exists t. auto.
  - rewrite fold_dict_keys. simpl. tauto.
  - intros [H | H]; apply in_map_iff in H; destruct H as [[k d] [Hk H]];
      apply filter_In in H; destruct H as [H _]; simpl in Hk; subst k;
      apply (in_map fst) in H; exact H.
Qed.

Lemma reach_reverse es u v :
  reach es u v -> reach (map reverse_edge es) v u.
Proof.
  assert (forall x y z, reach (map reverse_edge es) x y -> In (z, y) es ->
            reach (map reverse_edge es) x z) as Hsnoc.
  { intros x y z H. induction H as [a b Hab | a b c Hab Hr IH]; intros Hz.
    - apply (reach_step _ a b z Hab). apply reach_one.
      apply (in_map reverse_edge) in Hz. exact Hz.
    - apply (reach_step _ a b z Hab). apply IH, Hz. }
  induction 1 as [a b Hab | a b c Hab Hr IH].
  - apply reach_one. apply (in_map reverse_edge) in Hab. exact Hab.
  - apply (Hsnoc c b a IH Hab).
Qed.

Lemma reach_in_trails es v u :
  reach es v u -> u <> v ->
  exists t, In t (var_trails es v) /\ path_end v t = u.
Proof.
  intros Hr Hne. destruct (reach_simple es v u Hr (not_eq_sym Hne))
    as [t [Htne [Hw [He Hn]]]].
  exists t. split; [|exact He]. unfold var_trails.
  apply trails_complete; auto. apply (simple_walk_length es v t Hw Hn).
Qed.


(** ** Reachability queries *)

(** C5: [v] is never in the result of [find_dependencies v] or
    [find_impact v] (not among the names, the depth map's keys, the direct
    or the transitive lists), also when [v] lies on a cycle; every other
    node [u] that [v] reaches (for [find_dependencies]) or that reaches [v]
    (for [find_impact]), in particular every other node of a cycle through
    [v], is in the result. *)
Theorem self_excluded_from_own_result s v :
  (forall r, r = find_dependencies s v \/ r = find_impact s v ->
     ~ In v (all_vars r) /\ ~ In v (map fst (depths r))
     /\ ~ In v (direct r) /\ ~ In v (transitive r))
  /\ (forall u, u <> v -> reach (edges s) v u ->
        In u (all_vars (find_dependencies s v))
        /\ In u (map fst (depths (find_dependencies s v))))
  /\ (forall u, u <> v -> reach (edges s) u v ->
        In u (all_vars (find_impact s v))
        /\ In u (map fst (depths (find_impact s v)))).
Proof.
  split; [|split].
  - intros r Hr.
    assert (exists es, r = reach_result_of v (reach_rows es v)) as [es ->].
    { destruct Hr as [-> | ->]; eexists; reflexivity. }
    destruct (reach_result_names es v v) as [H1 [H2 H3]].
    assert (~ In v (all_vars (reach_result_of v (reach_rows es v)))) as Hn.
    { rewrite H1. intros [t [_ [_ Hne]]]. apply Hne. reflexivity. }
    repeat split; [exact Hn | rewrite H2; exact Hn | |];
      intros H; apply Hn, H2, H3; auto.
  - intros u Hne Hr. destruct (reach_result_names (edges s) v u) as [H1 [H2 _]].
    unfold find_dependencies. rewrite H2.
    assert (In u (all_vars (reach_result_of v (reach_rows (edges s) v)))) as Hu;
      [|split; exact Hu].
    rewrite H1. destruct (reach_in_trails _ _ _ Hr Hne) as [t [Ht He]]. eauto.
  - intros u Hne Hr.
    destruct (reach_result_names (map reverse_edge (edges s)) v u) as [H1 [H2 _]].
    unfold find_impact. rewrite H2.
    assert (In u (all_vars (reach_result_of v
                              (reach_rows (map reverse_edge (edges s)) v)))) as Hu;
      [|split; exact Hu].
    rewrite H1.
    destruct (reach_in_trails _ _ _ (reach_reverse _ _ _ Hr) Hne) as [t [Ht He]].
    eauto.
Qed.

Lemma self_excluded_from_own_result_witness :
  "b" <> "a" /\ reach (edges st_c2) "a" "b"
  /\ In "b" (all_vars (find_dependencies st_c2 "a"))
  /\ ~ In "a" (all_vars (find_dependencies st_c2 "a")).
Proof.
  assert (reach (edges st_c2) "a" "b") as Hr
    by (apply reach_one; simpl; auto).
  destruct (self_excluded_from_own_result st_c2 "a") as [Hex [Hdep _]].
  split; [discriminate|]. split; [exact Hr|]. split.
  - apply (Hdep "b"); [discriminate | exact Hr].
  - apply (Hex _ (or_introl eq_refl)).
Defined.

(** C2 (failing input): in [a -> b -> a, a -> c], [c] is one edge away
    from [a], but [find_dependencies a] also matches the longer path
    [a -> b -> a -> c]; the dict comprehension keeps the last row for [c],
    and the rows are ordered by increasing depth, so [c] gets depth 3 and
    is listed as transitive, not direct (and [c] is counted twice in the
    total).  The same happens for [find_impact] on the reversed graph. *)
Theorem find_dependencies_depth_not_minimal :
  In ("a", "c") (edges st_c2)
  /\ dict_get "c" (depths (find_dependencies st_c2 "a")) = Some 3
  /\ ~ In "c" (direct (find_dependencies st_c2 "a"))
  /\ In "c" (transitive (find_dependencies st_c2 "a"))
  /\ total (find_dependencies st_c2 "a") = 3.
Proof.
  split; [simpl; auto|]. vm_compute.
  split; [reflexivity|]. split; [intros [H | []]; discriminate|].
  split; [left; reflexivity | reflexivity].
Qed.

Lemma in_firstn {A} n (l : list A) x : In x (firstn n l) -> In x l.
Proof.
  intros H. rewrite <- (firstn_skipn n l). apply in_or_app. left. exact H.
Qed.

Lemma sorted_firstn {A} (R : A -> A -> Prop) n l :
  Sorted R l -> Sorted R (firstn n l).
Proof.
  revert n. induction l as [|x r IH]; intros n H; destruct n; simpl; auto.
  inversion H as [|x' r' Hr Hhd]; subst. constructor; [apply IH, Hr|].
  destruct r as [|y r]; destruct n; simpl; constructor.
  inversion Hhd; assumption.
Qed.

Lemma insert_by_sorted {A} (R : A -> A -> Prop) (leb : A -> A -> bool) x l :
  (forall a b, leb a b = true -> R a b) ->
  (forall a b, leb a b = false -> R b a) ->
  Sorted R l -> Sorted R (insert_by leb x l).
Proof.
  intros Ht Hf. induction l as [|y r IH]; intros H; simpl.
  - constructor; constructor.
  - destruct (leb x y) eqn:E.
    + constructor; [exact H | constructor; apply Ht, E].
    + inversion H as [|y' r' Hr Hhd]; subst. constructor; [apply IH, Hr|].
      destruct r as [|z r]; simpl; [constructor; apply Hf, E|].
      destruct (leb x z); constructor; [apply Hf, E|].
      inversion Hhd; assumption.
Qed.

Lemma sort_by_sorted {A} (R : A -> A -> Prop) (leb : A -> A -> bool) l :
  (forall a b, leb a b = true -> R a b) ->
  (forall a b, leb a b = false -> R b a) ->
  Sorted R (sort_by leb l).
Proof.
  intros Ht Hf. induction l as [|x r IH]; simpl; [constructor|].
  apply insert_by_sorted; assumption.
Qed.

(** ** Path enumeration *)

(** ** Cycle detection *)

Lemma scan_cycle_len u c u' : scan_cycle u c = Some u' -> 2 <= List.length u'.
Proof.
  revert u. induction c as [|x r IH]; intros u H; simpl in H; [discriminate|].
  destruct (negb (existsb (String.eqb x) u)); [apply (IH _ H)|].
  destruct u as [|u0 [|u1 us]]; try apply (IH _ H).
  destruct (String.eqb x u0); [|apply (IH _ H)].
  inversion H; subst. simpl. lia.
Qed.

Lemma first_pass_ok recs : cycles_ok (first_pass recs).
Proof.
  intros c H. unfold first_pass in H. apply in_flat_map in H.
  destruct H as [r [_ H]]. destruct (scan_cycle [] r) eqn:E; [|destruct H].
  destruct H as [<- | []]. apply (scan_cycle_len _ _ _ E).
Qed.

Lemma visit_successors_ok sc v ws st :
  (forall w st', cycles_ok (t_cycles st') -> cycles_ok (t_cycles (sc w st'))) ->
  cycles_ok (t_cycles st) -> cycles_ok (t_cycles (visit_successors sc v ws st)).
Proof.
  intros Hsc. revert st. induction ws as [|w ws IH]; intros st H; simpl; [exact H|].
  destruct (dict_get w (t_index st)).
  - destruct (existsb (String.eqb w) (t_on_stack st)); apply IH; exact H.
  - apply IH. apply Hsc. exact H.
Qed.

Lemma strongconnect_ok fuel g v st :
  cycles_ok (t_cycles st) -> cycles_ok (t_cycles (strongconnect fuel g v st)).
Proof.
  revert v st. induction fuel as [|f IH]; intros v st H; simpl; [exact H|].
  set (st2 := visit_successors (strongconnect f g) v (successors g v) _).
  assert (cycles_ok (t_cycles st2)) as H2.
  { apply visit_successors_ok; [intros w st' Hst'; apply IH, Hst' | exact H]. }
  destruct (Nat.eqb _ _); [|exact H2].
  destruct (pop_component v (t_stack st2) (t_on_stack st2) []) as [[comp stk] on].
  simpl. destruct (Nat.ltb 1 (List.length comp)) eqn:E; [|exact H2].
  intros c Hc. apply in_app_iff in Hc. destruct Hc as [Hc | [<- | []]].
  - apply H2, Hc.
  - apply Nat.ltb_lt in E. lia.
Qed.

Lemma tarjan_cycles_ok records : cycles_ok (tarjan_cycles records).
Proof.
  unfold tarjan_cycles.
  assert (forall ns st, cycles_ok (t_cycles st) ->
            cycles_ok (t_cycles (fold_left (fun st node =>
               match dict_get node (t_index st) with
               | Some _ => st
               | None => strongconnect (S (2 * List.length records))
                           (build_graph records) node st
               end) ns st))) as Hf.
  { induction ns as [|n ns IH]; intros st H; [exact H|].
    cbn [fold_left]. apply IH. destruct (dict_get n (t_index st)); [exact H|].
    apply strongconnect_ok, H. }
  apply Hf. intros c [].
Qed.

Lemma unique_cycles_incl seen cs c : In c (unique_cycles seen cs) -> In c cs.
Proof.
  revert seen. induction cs as [|x r IH]; intros seen H; simpl in H; [exact H|].
  destruct (existsb _ seen).
  - right. apply (IH _ H).
  - destruct H as [<- | H]; [left; reflexivity | right; apply (IH _ H)].
Qed.

Lemma self_loop_rows v ln fp : cycle_rows (self_loop_store v ln fp) = [[v; v]].
Proof.
  unfold cycle_rows, var_trails, path_end. simpl. rewrite !String.eqb_refl.
  simpl. rewrite String.eqb_refl. reflexivity.
Qed.

Lemma self_loop_detect v ln fp recs records :
  cycle_query_result (self_loop_store v ln fp) recs ->
  Permutation records [(v, v)] ->
  detect_cycles recs records = [].
Proof.
  intros [full [Hp ->]] Hr. rewrite self_loop_rows in Hp.
  apply Permutation_length_1_inv in Hp. subst full.
  apply Permutation_sym, Permutation_length_1_inv in Hr. subst records.
  unfold detect_cycles, first_pass, tarjan_cycles, build_graph.
  cbn - [strongconnect]. rewrite !String.eqb_refl. cbn - [strongconnect].
  unfold strongconnect, successors, get_nat, set_lowlink.
  cbn - [String.eqb]. rewrite !String.eqb_refl. cbn - [String.eqb].
  rewrite !String.eqb_refl. cbn - [String.eqb].
  repeat (rewrite !String.eqb_refl; cbn - [String.eqb]).
  rewrite Nat.min_0_r. reflexivity.
Qed.

(** C1 (counterexample): on the graph whose only edge is the self-loop
    [counter -> counter] (what [counter += 1] alone yields), [detect_cycles]
    does not report [[counter]], whatever order the store returns rows in. *)
Lemma self_loop_not_reported :
  ~ (forall recs records,
       cycle_query_result (self_loop_store "counter" 27 "test_vars.py") recs ->
       Permutation records (edges (self_loop_store "counter" 27 "test_vars.py")) ->
       In ["counter"] (detect_cycles recs records)).
Proof.
  intros H.
  assert (cycle_query_result (self_loop_store "counter" 27 "test_vars.py")
            [["counter"; "counter"]]) as Hq.
  { exists [["counter"; "counter"]]. rewrite self_loop_rows.
    split; reflexivity. }
  specialize (H _ [("counter", "counter")] Hq (Permutation_refl _)).
  rewrite (self_loop_detect "counter" 27 "test_vars.py" _ _ Hq
             (Permutation_refl _)) in H.
  destruct H.
Qed.

(** C1 (as the code does it): [detect_cycles] never reports a singleton
    cycle; every cycle it reports has at least two names, since the first
    pass keeps a path only once it has met two distinct names and the
    Tarjan pass keeps only components of more than one node.  So a
    self-loop [(v, v)] on its own is not reported: on the graph whose only
    edge is [(v, v)] the result is empty. *)
Theorem detect_cycles_no_singleton :
  (forall recs records c,
     In c (detect_cycles recs records) -> 2 <= List.length c)
  /\ (forall v ln fp recs records,
        cycle_query_result (self_loop_store v ln fp) recs ->
        Permutation records (edges (self_loop_store v ln fp)) ->
        detect_cycles recs records = []).
Proof.
  split.
  - intros recs records c H. apply unique_cycles_incl in H.
    apply in_app_iff in H. destruct H as [H | H];
      [apply (first_pass_ok _ _ H) | apply (tarjan_cycles_ok _ _ H)].
  - intros v ln fp recs records Hq Hr. apply (self_loop_detect v ln fp); assumption.
Qed.

Lemma detect_cycles_no_singleton_witness :
  cycle_query_result (self_loop_store "v" 1 "f.py") [["v"; "v"]]
  /\ detect_cycles [["v"; "v"]] [("v", "v")] = [].
Proof.
  assert (cycle_query_result (self_loop_store "v" 1 "f.py") [["v"; "v"]]) as Hq.
  { exists [["v"; "v"]]. rewrite self_loop_rows. split; reflexivity. }
  split; [exact Hq|].
  apply (proj2 detect_cycles_no_singleton "v" 1%Z "f.py"); [exact Hq | apply Permutation_refl].
Defined.

(** ** Metrics *)

(** C3 (counterexample): a failed fan-in query gives the same report as a
    fan-in query that returned no rows, so the failure is not surfaced; and
    a failure of the cycle detection run by [get_metrics] aborts the whole
    report. *)
Lemma metrics_failure_not_surfaced :
  ~ (forall qs qs' cs,
       q_most_dependent qs = None -> q_most_dependent qs' <> None ->
       get_metrics qs (Some cs) <> get_metrics qs' (Some cs))
  /\ ~ (forall qs detected, get_metrics qs detected <> None).
Proof.
  split.
  - intros H.
    apply (H (mk_mrecords (Some [3%Z]) (Some [2%Z]) None (Some []) (Some [])
                (Some []) (Some []))
             (mk_mrecords (Some [3%Z]) (Some [2%Z]) (Some []) (Some []) (Some [])
                (Some []) (Some [])) []);
      [reflexivity | discriminate | reflexivity].
  - intros H. apply (H (mk_mrecords None None None None None None None) None).
    reflexivity.
Qed.

(** C3 (as the code does it): whenever the cycle detection succeeds,
    [get_metrics] returns a full report, each of its seven store queries
    that failed defaulting to 0 or [[]]; the report is exactly the one
    obtained if each failed query had returned no rows, so no failure is
    recorded in it.  A failure of the cycle detection (outside the [try])
    aborts [get_metrics]. *)
Theorem get_metrics_failures_default :
  (forall qs cs,
     exists m, get_metrics qs (Some cs) = Some m
       /\ get_metrics qs (Some cs) = get_metrics (fail_as_empty qs) (Some cs)
       /\ cycles m = cs /\ circular_dependencies m = List.length cs)
  /\ (forall qs, get_metrics qs None = None).
Proof.
  split; [|reflexivity].
  intros [tv td md mds iv rv lv] cs. eexists. split; [reflexivity|].
  split; [|split; reflexivity].
  unfold get_metrics, fail_as_empty. simpl.
  destruct tv, td, md, mds, iv, rv, lv; reflexivity.
Qed.

Lemma strongly_sorted_app {A} (R : A -> A -> Prop) l1 l2 x y :
  StronglySorted R (l1 ++ l2) -> In x l1 -> In y l2 -> R x y.
Proof.
  induction l1 as [|z l1 IH]; intros H Hx Hy; [destruct Hx|].
  simpl in H. apply StronglySorted_inv in H. destruct H as [H Hall].
  destruct Hx as [<- | Hx].
  - rewrite Forall_forall in Hall. apply Hall, in_or_app. right. exact Hy.
  - apply IH; assumption.
Qed.

(** What a leaderboard answer says, for a degree function [deg]. *)
Lemma leaderboard_query_props (deg : string -> nat) ns out :
  leaderboard_query
    (map (fun n => (n, Z.of_nat (deg n))) (filter (fun n => Nat.ltb 0 (deg n)) ns))
    out ->
  List.length out <= 10
  /\ Sorted (fun x y => (snd y <= snd x)%Z) out
  /\ (forall n c, In (n, c) out ->
        In n ns /\ c = Z.of_nat (deg n) /\ (1 <= c)%Z)
  /\ (forall n, In n ns -> ~ In n (map fst out) ->
        forall m c, In (m, c) out -> (Z.of_nat (deg n) <= c)%Z).
Proof.
  intros [full [Hp [Hs ->]]].
  assert (forall n c, In (n, c) full ->
            In n ns /\ c = Z.of_nat (deg n) /\ (1 <= c)%Z) as Hmem.
  { intros n c H. apply (Permutation_in _ (Permutation_sym Hp)) in H.
    apply in_map_iff in H. destruct H as [k [Heq H]]. inversion Heq; subst.
    apply filter_In in H. destruct H as [H Hd]. apply Nat.ltb_lt in Hd.
    repeat split; [exact H | lia]. }
  split; [apply firstn_le_length|]. split; [apply sorted_firstn, Hs|].
  split; [intros n c H; apply Hmem, (in_firstn 10), H|].
  intros n Hn Hout m c Hmc.
  destruct (deg n) as [|d] eqn:Ed.
  - destruct (Hmem m c (in_firstn _ _ _ Hmc)) as [_ [_ H1]]. simpl. lia.
  - assert (In (n, Z.of_nat (S d)) full) as Hfull.
    { apply (Permutation_in _ Hp). apply in_map_iff. exists n.
      rewrite Ed. split; [reflexivity|]. apply filter_In. rewrite Ed. auto. }
    rewrite <- (firstn_skipn 10 full) in Hfull. apply in_app_or in Hfull.
    destruct Hfull as [Hf | Hf].
    + exfalso. apply Hout. apply (in_map fst) in Hf. exact Hf.
    + apply Sorted_StronglySorted in Hs; [|intros x y z H1 H2; lia].
      rewrite <- (firstn_skipn 10 full) in Hs.
      apply (strongly_sorted_app _ _ _ _ _ Hs Hmc Hf).
Qed.

(** C4 (counterexample): in [a -> c, b -> d] the nodes [c] and [d] tie on
    in-degree 1; [ORDER BY count DESC] lets the store return [d] before [c],
    and [get_metrics] passes that order on, so ties are not broken by
    ascending name and the leaderboard is not determined by the graph. *)
Lemma fan_in_ties_unordered :
  ~ (forall out qs m,
       leaderboard_query (fan_in_rows st_tie) out ->
       q_most_dependent qs = Some (leaderboard_records out) ->
       get_metrics qs (Some []) = Some m ->
       Sorted (fun x y => (snd y < snd x)%Z
                          \/ (snd y = snd x /\ String.leb (fst x) (fst y) = true))
         (most_dependent m)).
Proof.
  intros H.
  set (out := [("d", 1%Z); ("c", 1%Z)]).
  set (qs := mk_mrecords (Some [4%Z]) (Some [2%Z]) (Some (leaderboard_records out))
               (Some []) (Some []) (Some []) (Some [])).
  assert (leaderboard_query (fan_in_rows st_tie) out) as Hq.
  { exists out. split; [|split; [|reflexivity]].
    - vm_compute. apply perm_swap.
    - repeat constructor; simpl; lia. }
  specialize (H out qs _ Hq eq_refl eq_refl). simpl in H.
  inversion H as [|x l Hs Hhd]; subst. inversion Hhd as [|y l' Hr]; subst.
  simpl in Hr. destruct Hr as [Hr | [_ Hr]]; [lia | vm_compute in Hr; discriminate].
Qed.

(** C4 (as the code does it): the fan-in leaderboard of the report is the
    query's answer: at most 10 (node, in-degree) pairs of nodes with at
    least one incoming relationship, in non-increasing order of in-degree,
    and every node left out has an in-degree no larger than every listed
    count; the order among equal in-degrees is the store's.  The fan-out
    leaderboard is the same on out-degree. *)
Theorem leaderboards_by_count s cs :
  (forall out qs m,
     leaderboard_query (fan_in_rows s) out ->
     q_most_dependent qs = Some (leaderboard_records out) ->
     get_metrics qs (Some cs) = Some m ->
     most_dependent m = out
     /\ List.length out <= 10
     /\ Sorted (fun x y => (snd y <= snd x)%Z) out
     /\ (forall n c, In (n, c) out ->
           In n (nodes s) /\ c = Z.of_nat (in_degree (edges s) n) /\ (1 <= c)%Z)
     /\ (forall n, In n (nodes s) -> ~ In n (map fst out) ->
           forall n' c, In (n', c) out -> (Z.of_nat (in_degree (edges s) n) <= c)%Z))
  /\ (forall out qs m,
        leaderboard_query (fan_out_rows s) out ->
        q_most_dependencies qs = Some (leaderboard_records out) ->
        get_metrics qs (Some cs) = Some m ->
        most_dependencies m = out
        /\ List.length out <= 10
        /\ Sorted (fun x y => (snd y <= snd x)%Z) out
        /\ (forall n c, In (n, c) out ->
              In n (nodes s) /\ c = Z.of_nat (out_degree (edges s) n) /\ (1 <= c)%Z)
        /\ (forall n, In n (nodes s) -> ~ In n (map fst out) ->
              forall n' c, In (n', c) out -> (Z.of_nat (out_degree (edges s) n) <= c)%Z)).
Proof.
  assert (forall out,
            leaderboard_metric (Some (leaderboard_records out)) = out) as Hlm.
  { induction out as [|[n c] r IH]; [reflexivity|].
    unfold leaderboard_metric in *. simpl. rewrite IH. reflexivity. }
  split; intros out qs m Hq Hr Hm; unfold get_metrics in Hm;
    inversion Hm; subst; simpl; rewrite Hr, Hlm; split; [reflexivity| |reflexivity|];
    [apply (leaderboard_query_props (in_degree (edges s)) (nodes s) out Hq)
    |apply (leaderboard_query_props (out_degree (edges s)) (nodes s) out Hq)].
Qed.

(** C9: [find_unused_variables] and the [root_variables] entry of
    [get_metrics] run the same query ([WHERE NOT (v)<-[:DEPENDS_ON]-()]); when
    both succeed their answers are orderings of the same rows, so the two
    lists hold the same names: exactly the nodes with no incoming
    relationship. *)
Theorem unused_equals_roots s qs cs m r1 r2 :
  Permutation (root_rows s) r1 ->
  Permutation (root_rows s) r2 ->
  q_root_variables qs = Some r1 ->
  get_metrics qs (Some cs) = Some m ->
  exists l, find_unused_variables (Some r2) = Some l
    /\ Permutation l (root_variables m)
    /\ (forall n, In n l <-> In n (root_variables m))
    /\ (forall n, In (Some n) l <-> In n (nodes s) /\ in_degree (edges s) n = 0).
Proof.
  intros H1 H2 Hq Hm. unfold get_metrics in Hm. inversion Hm; subst; clear Hm.
  exists r2. cbn [root_variables]. rewrite Hq. cbn [names_metric].
  assert (Hl : map (fun var : option string => var) r2 = r2).
  { apply map_id. }
  unfold find_unused_variables. rewrite Hl.
  assert (Hp : Permutation r2 r1).
  { eapply Permutation_trans; [apply Permutation_sym; exact H2 | exact H1]. }
  split; [reflexivity|]. split; [exact Hp|]. split.
  - intros n. split; apply Permutation_in; [exact Hp | apply Permutation_sym; exact Hp].
  - intros n. split.
    + intros Hin. apply (Permutation_in _ (Permutation_sym H2)) in Hin.
      unfold root_rows in Hin. apply in_map_iff in Hin as [n' [Heq Hf]].
      injection Heq as <-. apply filter_In in Hf as [Hn Hd].
      split; [exact Hn | apply Nat.eqb_eq; exact Hd].
    + intros [Hn Hd]. apply (Permutation_in _ H2). unfold root_rows.
      apply in_map. apply filter_In. split; [exact Hn | apply Nat.eqb_eq; exact Hd].
Qed.

Lemma unused_equals_roots_witness :
  exists l, find_unused_variables (Some [Some "a"]) = Some l
    /\ Permutation l [Some "a"]
    /\ (forall n, In n l <-> In n [Some "a"])
    /\ (forall n, In (Some n) l <-> In n (nodes st_line) /\ in_degree (edges st_line) n = 0).
Proof.
  exact (unused_equals_roots st_line
           (mk_mrecords None None None None None (Some [Some "a"]) None) []
           (mk_metrics 0 0 [] [] [] [Some "a"] [] 0 [])
           [Some "a"] [Some "a"]
           (Permutation_refl _) (Permutation_refl _) eq_refl eq_refl).
Defined.

(** Witness for C4: on [a -> c, b -> d] with the answer [c; d]. *)
Lemma leaderboards_by_count_witness :
  let out := [("c", 1%Z); ("d", 1%Z)] in
  let qs := mk_mrecords (Some [4%Z]) (Some [2%Z]) (Some (leaderboard_records out))
              (Some (leaderboard_records [("a", 1%Z); ("b", 1%Z)]))
              (Some []) (Some []) (Some []) in
  leaderboard_query (fan_in_rows st_tie) out
  /\ most_dependent (mk_metrics 4 2 out [("a", 1%Z); ("b", 1%Z)] [] [] [] 0 []) = out
  /\ List.length out <= 10.
Proof.
  intros out qs.
  assert (Hq : leaderboard_query (fan_in_rows st_tie) out).
  { exists out. split; [reflexivity|]. split; [repeat constructor; simpl; lia | reflexivity]. }
  destruct (proj1 (leaderboards_by_count st_tie []) out qs
              (mk_metrics 4 2 out [("a", 1%Z); ("b", 1%Z)] [] [] [] 0 []) Hq eq_refl eq_refl)
    as [He [Hlen _]].
  split; [exact Hq | split; [exact He | exact Hlen]].
Defined.

(* ================================================================= *)
(** * Further properties of the code *)

(** ** parser.py *)

Lemma visit_expr_sites fp x e :
  x <> "" ->
  visit_expr fp (Some x) e = map (fun ns => (x, fst ns, snd ns, fp)) (load_sites e).
Proof.
  intros Hx. apply String.eqb_neq in Hx.
  induction e using expr_ind'; simpl;
    try (induction H as [|a r Ha Hr IHr]; simpl;
         [reflexivity | rewrite map_app, Ha, IHr; reflexivity]).
  - destruct ctx; simpl; rewrite ?Hx; reflexivity.
  - exact IHe.
  - rewrite map_app, IHe1, IHe2; reflexivity.
  - exact IHe.
Qed.

Lemma visit_expr_entry fp x e d :
  In d (visit_expr fp (Some x) e) ->
  exists n l, d = (x, n, l, fp) /\ In (n, l) (load_sites e).
Proof.
  intros Hd. destruct (String.eqb x "") eqn:E.
  - assert (map dep_pair (visit_expr fp (Some x) e) = []) as H0.
    { rewrite visit_expr_pairs, E. reflexivity. }
    destruct (visit_expr fp (Some x) e); [destruct Hd | discriminate].
  - apply String.eqb_neq in E. rewrite (visit_expr_sites fp x e E) in Hd.
    apply in_map_iff in Hd. destruct Hd as [[n l] [<- Hin]]. exists n, l. auto.
Qed.

Lemma unique_deps_first seen ds d :
  In d (unique_deps seen ds)
  <-> exists pre post, ds = pre ++ d :: post
        /\ ~ In (dep_pair d) (map dep_pair pre) /\ ~ In (dep_pair d) seen.
Proof.
  revert seen. induction ds as [|d0 r IH]; intros seen; simpl.
  - split; [intros []|]. intros [pre [post [H _]]]. destruct pre; discriminate.
  - destruct (existsb (pair_eqb (dep_pair d0)) seen) eqn:E.
    + apply existsb_pair_in in E. rewrite IH. split.
      * intros [pre [post [-> [H1 H2]]]]. exists (d0 :: pre), post.
        split; [reflexivity|]. split; [|exact H2].
        simpl. intros [H | H]; [rewrite H in E; contradiction | contradiction].
      * intros [pre [post [Heq [H1 H2]]]]. destruct pre as [|p0 pre].
        { injection Heq as <- _. contradiction. }
        injection Heq as <- ->. exists pre, post. simpl in H1.
        split; [reflexivity|]. split; [intros H; apply H1; right; exact H | exact H2].
    + assert (~ In (dep_pair d0) seen) as E'.
      { intros H. apply existsb_pair_in in H. congruence. }
      simpl. rewrite IH. split.
      * intros [<- | [pre [post [-> [H1 H2]]]]].
        -- exists [], r. auto.
        -- exists (d0 :: pre), post. split; [reflexivity|].
           simpl in H2 |- *. split; [intros [H | H]; auto | auto].
      * intros [pre [post [Heq [H1 H2]]]]. destruct pre as [|p0 pre].
        { injection Heq as <- _. left. reflexivity. }
        injection Heq as <- ->. right. exists pre, post. simpl in H1 |- *.
        split; [reflexivity|]. split; [intros H; apply H1; right; exact H|].
        intros [H | H]; [apply H1; left; exact H | exact (H2 H)].
Qed.

Lemma combine_nth_error {A B} (xs : list A) (ys : list B) x y :
  In (x, y) (combine xs ys)
  <-> exists i, nth_error xs i = Some x /\ nth_error ys i = Some y.
Proof.
  revert ys. induction xs as [|a r IH]; intros ys.
  - simpl. split; [intros []|]. intros [i [H _]]. destruct i; discriminate.
  - destruct ys as [|b ys]; simpl.
    + split; [intros []|]. intros [i [_ H]]. destruct i; discriminate.
    + rewrite IH. split.
      * intros [H | [i Hi]]; [injection H as -> ->; exists 0; auto | exists (S i); exact Hi].
      * intros [[|i] [H1 H2]]; simpl in H1, H2.
        -- injection H1 as ->. injection H2 as ->. left. reflexivity.
        -- right. exists i. auto.
Qed.

Lemma loads_tuple_elt v vs c :
  In v vs -> incl (loads v) (loads (Tuple vs c)).
Proof.
  intros Hv n Hn. simpl. induction vs as [|w r IH]; [destruct Hv|].
  apply in_or_app. destruct Hv as [<- | Hv]; [left; exact Hn | right; apply IH, Hv].
Qed.

Lemma load_sites_loads e : map fst (load_sites e) = loads e.
Proof.
  induction e using expr_ind'; simpl;
    try (induction H as [|a r Ha Hr IHr]; simpl;
         [reflexivity | rewrite map_app, Ha, IHr; reflexivity]).
  - destruct ctx; reflexivity.
  - exact IHe.
  - rewrite map_app, IHe1, IHe2; reflexivity.
  - exact IHe.
Qed.

Lemma visit_expr_entry_loads fp x e d :
  In d (visit_expr fp (Some x) e) ->
  (let '(_, _, _, f) := d in f = fp) /\ fst (dep_pair d) = x
  /\ In (snd (dep_pair d)) (loads e).
Proof.
  intros Hd. destruct (visit_expr_entry _ _ _ _ Hd) as [n [l [-> Hin]]].
  split; [reflexivity|]. split; [reflexivity|]. simpl.
  rewrite <- load_sites_loads. apply (in_map fst) in Hin. exact Hin.
Qed.

Lemma visit_stmt_sound fp s d :
  In d (visit_stmt fp s) ->
  (let '(_, _, _, f) := d in f = fp)
  /\ exists s', In s' (stmts_of s)
       /\ assigns_from s' (fst (dep_pair d)) (snd (dep_pair d)).
Proof.
  revert d. induction s as [ts v ln | t v ln | es body IH] using stmt_ind'; intros d Hd.
  - destruct ts as [|t [|t2 r]]; [destruct Hd| |destruct t; destruct Hd].
    destruct t as [x cx lx | ts cx | | | | |]; try destruct Hd.
    + destruct (visit_expr_entry_loads _ _ _ _ Hd) as [Hf [H1 H2]].
      split; [exact Hf|]. exists (Assign [Name x cx lx] v ln).
      split; [left; reflexivity|]. simpl. auto.
    + cbn [visit_stmt visit_Assign] in Hd.
      destruct v as [ | vs vc | | | | | ]; apply in_concat in Hd;
      destruct Hd as [l [Hl Hd]]; apply in_map_iff in Hl;
        try (destruct Hl as [t [<- Ht]];
             destruct t as [x cx' lx | | | | | |]; try destruct Hd;
             destruct (visit_expr_entry_loads _ _ _ _ Hd) as [Hf [H1 H2]];
             split; [exact Hf|]; eexists; split; [left; reflexivity|];
             simpl; split; [exists cx', lx; rewrite H1; exact Ht | exact H2]).
      destruct Hl as [[t rhs] [<- Ht]]. simpl in Hd.
      destruct t as [x cx' lx | | | | | |]; try destruct Hd.
      destruct (visit_expr_entry_loads _ _ _ _ Hd) as [Hf [H1 H2]].
      split; [exact Hf|]. eexists; split; [left; reflexivity|]. simpl. split.
      * exists cx', lx. rewrite H1. apply (in_combine_l _ _ _ _ Ht).
      * apply (loads_tuple_elt rhs vs vc (in_combine_r _ _ _ _ Ht)), H2.
  - destruct t as [x cx lx | | | | | |]; try (simpl in Hd; contradiction).
    cbn [visit_stmt visit_AugAssign] in Hd. destruct Hd as [<- | Hd].
    + split; [reflexivity|]. exists (AugAssign (Name x cx lx) v ln).
      split; [left; reflexivity|]. simpl. auto.
    + destruct (visit_expr_entry_loads _ _ _ _ Hd) as [Hf [H1 H2]].
      split; [exact Hf|]. exists (AugAssign (Name x cx lx) v ln).
      split; [left; reflexivity|]. simpl. auto.
  - simpl in Hd. apply in_app_or in Hd. destruct Hd as [Hd | Hd].
    + apply in_concat in Hd. destruct Hd as [l [Hl Hd]].
      apply in_map_iff in Hl. destruct Hl as [e [<- _]].
      rewrite visit_expr_none in Hd. destruct Hd.
    + apply in_concat in Hd. destruct Hd as [l [Hl Hd]].
      apply in_map_iff in Hl. destruct Hl as [s1 [<- Hs1]].
      rewrite Forall_forall in IH. destruct (IH s1 Hs1 d Hd) as [Hf [s' [Hs' Ha]]].
      split; [exact Hf|]. exists s'. split; [|exact Ha].
      simpl. right. apply in_concat. exists (stmts_of s1).
      split; [apply in_map, Hs1 | exact Hs'].
Qed.

Lemma in_pairs_concat (ls : list (list dep)) p :
  In p (map dep_pair (List.concat ls))
  <-> exists l, In l ls /\ In p (map dep_pair l).
Proof.
  rewrite concat_map, in_concat. split.
  - intros [l' [Hl' Hp]]. apply in_map_iff in Hl'. destruct Hl' as [l [<- Hl]].
    exists l. auto.
  - intros [l [Hl Hp]]. exists (map dep_pair l). split; [apply in_map, Hl | exact Hp].
Qed.

(** Extra (parser.py, [visit_Assign] and [visit_Name]): an assignment
    [x = e] records, in reading order, one entry [(x, n, line, file)] for
    every occurrence of a name [n] read in [e], with the line of that
    occurrence (not the line of the statement); [find_variable_deps] then
    keeps, for each name read, the entry of its first occurrence. *)
Theorem assign_name_entries fp x c l e ln :
  x <> "" ->
  visit_stmt fp (Assign [Name x c l] e ln)
    = map (fun ns => (x, fst ns, snd ns, fp)) (load_sites e)
  /\ forall n k,
       In (x, n, k, fp) (find_variable_deps fp [Assign [Name x c l] e ln])
       <-> exists pre post, load_sites e = pre ++ (n, k) :: post
                            /\ ~ In n (map fst pre).
Proof.
  intros Hx.
  assert (H0 : visit_stmt fp (Assign [Name x c l] e ln)
               = map (fun ns => (x, fst ns, snd ns, fp)) (load_sites e))
    by (apply visit_expr_sites; exact Hx).
  split; [exact H0|]. intros n k. unfold find_variable_deps.
  cbn [map List.concat]. rewrite app_nil_r, H0, unique_deps_first. split.
  - intros [pre [post [Heq [H1 _]]]]. apply map_eq_app in Heq.
    destruct Heq as [l1 [l2 [-> [<- Hl2]]]]. apply map_eq_cons in Hl2.
    destruct Hl2 as [[n' k'] [l2' [-> [Hh <-]]]]. injection Hh as -> ->.
    exists l1, l2'. split; [reflexivity|]. intros Hn. apply H1.
    rewrite map_map. apply in_map_iff in Hn. destruct Hn as [[n'' k''] [Hn Hin]].
    apply in_map_iff. exists (n'', k''). simpl in Hn |- *. subst n''. auto.
  - intros [pre [post [-> Hn]]].
    exists (map (fun ns => (x, fst ns, snd ns, fp)) pre),
           (map (fun ns => (x, fst ns, snd ns, fp)) post).
    split; [rewrite map_app; reflexivity|]. split; [|intros []].
    rewrite map_map. intros Hin. apply in_map_iff in Hin.
    destruct Hin as [[n' k'] [Heq Hin]]. simpl in Heq. injection Heq as ->.
    apply Hn. apply (in_map fst) in Hin. exact Hin.
Qed.

Lemma assign_name_entries_witness :
  "total" <> ""
  /\ In ("total", "sub_total", 18%Z, "test_vars.py")
       (find_variable_deps "test_vars.py"
          [Assign [Name "total" Store 18]
             (OtherExpr [Name "sub_total" Load 18; Name "tax_amount" Load 18]) 18]).
Proof.
  split; [discriminate|].
  apply (proj2 (assign_name_entries "test_vars.py" "total" Store 18
                  (OtherExpr [Name "sub_total" Load 18; Name "tax_amount" Load 18]) 18
                  ltac:(discriminate)) "sub_total" 18%Z).
  exists [], [("tax_amount", 18%Z)]. split; [reflexivity | intros []].
Defined.

(** Extra (parser.py, [visit_Assign], tuple target and tuple value): for
    [t_0, ..., t_m = v_0, ..., v_k] the pairs recorded are exactly the
    [(t_i, n)] with [t_i] a plain name and [n] read in [v_i] at the same
    position [i]: elements are matched up positionally, a target never
    depends on another position's value, and the elements past the
    shorter side are ignored. *)
Theorem assign_tuple_tuple_edges fp ts c vs c' ln :
  (forall id cx l, In (Name id cx l) ts -> id <> "") ->
  forall a b,
    In (a, b) (map dep_pair
                 (find_variable_deps fp [Assign [Tuple ts c] (Tuple vs c') ln]))
    <-> exists i cx l v, nth_error ts i = Some (Name a cx l)
                         /\ nth_error vs i = Some v /\ In b (loads v).
Proof.
  intros Hne a b. rewrite find_variable_deps_in. cbn [map List.concat].
  rewrite app_nil_r. cbn [visit_stmt visit_Assign]. rewrite in_pairs_concat. split.
  - intros [l' [Hl Hp]]. apply in_map_iff in Hl. destruct Hl as [[t v] [<- Ht]].
    simpl in Hp. destruct t as [id cx l | | | | | |]; try destruct Hp.
    rewrite visit_expr_pairs in Hp.
    assert (id <> "") as Hid by (apply (Hne id cx l), (in_combine_l _ _ _ _ Ht)).
    apply String.eqb_neq in Hid. rewrite Hid in Hp.
    apply in_map_iff in Hp. destruct Hp as [n [Hn Hin]]. injection Hn as -> ->.
    apply combine_nth_error in Ht. destruct Ht as [i [H1 H2]].
    exists i, cx, l, v. auto.
  - intros [i [cx [l [v [H1 [H2 Hb]]]]]].
    assert (In (Name a cx l, v) (combine ts vs)) as Ht
      by (apply combine_nth_error; exists i; auto).
    exists (visit_expr fp (Some a) v). split.
    + apply in_map_iff. exists (Name a cx l, v). auto.
    + rewrite visit_expr_pairs.
      assert (a <> "") as Ha by (apply (Hne a cx l), (in_combine_l _ _ _ _ Ht)).
      apply String.eqb_neq in Ha. rewrite Ha. apply in_map, Hb.
Qed.

Lemma assign_tuple_tuple_edges_witness :
  In ("b", "a")
    (map dep_pair (find_variable_deps "f.py"
       [Assign [Tuple [Name "a" Store 1; Name "b" Store 1] Store]
               (Tuple [Name "b" Load 1; Name "a" Load 1; Name "c" Load 1] Load) 1])).
Proof.
  apply (proj2 (assign_tuple_tuple_edges "f.py"
                  [Name "a" Store 1; Name "b" Store 1] Store
                  [Name "b" Load 1; Name "a" Load 1; Name "c" Load 1] Load 1
                  ltac:(intros id cx l [H | [H | []]]; injection H as <- _ _; discriminate)
                  "b" "a")).
  exists 1, Store, 1%Z, (Name "a" Load 1). split; [reflexivity|]. split; [reflexivity|].
  left. reflexivity.
Defined.

(** Extra (parser.py, [visit_Assign], tuple target and any other value):
    for [t_0, ..., t_m = e] with [e] not a tuple literal (a call, a name,
    a list, ...), the pairs recorded are exactly the [(t_i, n)] with [t_i]
    a plain name of the target and [n] a name read anywhere in [e]. *)
Theorem assign_tuple_value_edges fp ts c v ln :
  is_tuple v = false ->
  (forall id cx l, In (Name id cx l) ts -> id <> "") ->
  forall a b,
    In (a, b) (map dep_pair (find_variable_deps fp [Assign [Tuple ts c] v ln]))
    <-> (exists cx l, In (Name a cx l) ts) /\ In b (loads v).
Proof.
  intros Hv Hne a b. rewrite find_variable_deps_in. cbn [map List.concat].
  rewrite app_nil_r.
  assert (visit_stmt fp (Assign [Tuple ts c] v ln)
          = List.concat (map (fun t => match t with
                                       | Name id _ _ => visit_expr fp (Some id) v
                                       | _ => []
                                       end) ts)) as E
    by (destruct v; try discriminate; reflexivity).
  rewrite E, in_pairs_concat. split.
  - intros [l' [Hl Hp]]. apply in_map_iff in Hl. destruct Hl as [t [<- Ht]].
    destruct t as [id cx l | | | | | |]; try destruct Hp.
    rewrite visit_expr_pairs in Hp.
    assert (id <> "") as Hid by (apply (Hne id cx l), Ht).
    apply String.eqb_neq in Hid. rewrite Hid in Hp.
    apply in_map_iff in Hp. destruct Hp as [n [Hn Hin]]. injection Hn as -> ->.
    split; [exists cx, l; exact Ht | exact Hin].
  - intros [[cx [l Ht]] Hb]. exists (visit_expr fp (Some a) v). split.
    + apply in_map_iff. exists (Name a cx l). auto.
    + rewrite visit_expr_pairs.
      assert (a <> "") as Ha by (apply (Hne a cx l), Ht).
      apply String.eqb_neq in Ha. rewrite Ha. apply in_map, Hb.
Qed.

Lemma assign_tuple_value_edges_witness :
  In ("max_value", "x")
    (map dep_pair (find_variable_deps "f.py"
       [Assign [Tuple [Name "min_value" Store 1; Name "max_value" Store 1] Store]
               (OtherExpr [Name "f" Load 1; Name "x" Load 1]) 1])).
Proof.
  apply (proj2 (assign_tuple_value_edges "f.py"
                  [Name "min_value" Store 1; Name "max_value" Store 1] Store
                  (OtherExpr [Name "f" Load 1; Name "x" Load 1]) 1 eq_refl
                  ltac:(intros id cx l [H | [H | []]]; injection H as <- _ _; discriminate)
                  "max_value" "x")).
  split; [exists Store, 1%Z; right; left; reflexivity | right; left; reflexivity].
Defined.

(** Extra (parser.py, [find_variable_deps]): every entry returned carries
    the file path given, and its pair [(a, b)] comes from an assignment
    statement of the module (at any nesting depth) whose plain-name target
    is [a] and whose right-hand side reads [b], or is the self-pair of an
    augmented assignment to [a]; names in other statements (conditions,
    expression statements, returns) or in store context give no entry. *)
Theorem find_variable_deps_sound fp prog d :
  In d (find_variable_deps fp prog) ->
  (let '(_, _, _, f) := d in f = fp)
  /\ exists s, In s (List.concat (map stmts_of prog))
       /\ assigns_from s (fst (dep_pair d)) (snd (dep_pair d)).
Proof.
  intros Hd. unfold find_variable_deps in Hd. apply unique_deps_first in Hd.
  destruct Hd as [pre [post [Heq _]]].
  assert (In d (List.concat (map (visit_stmt fp) prog))) as Hin
    by (rewrite Heq; apply in_elt).
  apply in_concat in Hin. destruct Hin as [l [Hl Hin]].
  apply in_map_iff in Hl. destruct Hl as [s0 [<- Hs0]].
  destruct (visit_stmt_sound _ _ _ Hin) as [Hf [s [Hs Ha]]].
  split; [exact Hf|]. exists s. split; [|exact Ha].
  apply in_concat. exists (stmts_of s0). split; [apply in_map, Hs0 | exact Hs].
Qed.

Lemma find_variable_deps_sound_witness :
  In ("y", "x", 2%Z, "f.py")
     (find_variable_deps "f.py"
        [OtherStmt [Name "c" Load 1] [Assign [Name "y" Store 2] (Name "x" Load 2) 2]])
  /\ exists s, In s (List.concat (map stmts_of
                  [OtherStmt [Name "c" Load 1] [Assign [Name "y" Store 2] (Name "x" Load 2) 2]]))
       /\ assigns_from s "y" "x".
Proof.
  assert (H : In ("y", "x", 2%Z, "f.py")
     (find_variable_deps "f.py"
        [OtherStmt [Name "c" Load 1] [Assign [Name "y" Store 2] (Name "x" Load 2) 2]]))
    by (left; reflexivity).
  split; [exact H|].
  exact (proj2 (find_variable_deps_sound "f.py" _ _ H)).
Defined.

(** Extra (parser.py, [find_variable_deps]): the result has one entry per
    (assigned, used) pair, and an entry is in it exactly when it is the
    first entry with its pair among those the visitor recorded, so the
    line kept for a pair is the line of its first occurrence. *)
Theorem find_variable_deps_first_entry fp prog :
  NoDup (map dep_pair (find_variable_deps fp prog))
  /\ forall d,
       In d (find_variable_deps fp prog)
       <-> exists pre post, List.concat (map (visit_stmt fp) prog) = pre ++ d :: post
                            /\ ~ In (dep_pair d) (map dep_pair pre).
Proof.
  split; [apply unique_deps_nodup|]. intros d. unfold find_variable_deps.
  rewrite unique_deps_first. split.
  - intros [pre [post [H1 [H2 _]]]]. exists pre, post. auto.
  - intros [pre [post [H1 H2]]]. exists pre, post. auto.
Qed.

(** ** loader.py *)

Lemma find_rel_none a b rs :
  find_rel a b rs = None <-> ~ In (a, b) (map rel_pair rs).
Proof.
  unfold find_rel. induction rs as [|r rs IH]; simpl; [tauto|].
  destruct (pair_eqb (rel_pair r) (a, b)) eqn:E.
  - apply pair_eqb_true in E. split; [discriminate|].
    intros H. exfalso. apply H. left. exact E.
  - rewrite IH. split.
    + intros H [H' | H']; [|exact (H H')].
      rewrite H', (proj2 (pair_eqb_true _ _) eq_refl) in E. discriminate.
    + intros H H'. apply H. right. exact H'.
Qed.

Lemma find_rel_some a b rs r :
  find_rel a b rs = Some r -> In (a, b) (map rel_pair rs).
Proof.
  unfold find_rel. intros H. apply find_some in H. destruct H as [Hin He].
  apply pair_eqb_true in He. rewrite <- He. apply in_map, Hin.
Qed.

Lemma merge_node_nodup n ns : NoDup ns -> NoDup (merge_node n ns).
Proof.
  intros H. unfold merge_node. destruct (existsb (String.eqb n) ns) eqn:E; [exact H|].
  apply (Permutation_NoDup (Permutation_cons_append ns n)). constructor; [|exact H].
  intros Hin. assert (existsb (String.eqb n) ns = true) as E'.
  { apply existsb_exists. exists n. split; [exact Hin | apply String.eqb_refl]. }
  congruence.
Qed.

Lemma upsert_row_edges s d e :
  In e (edges (upsert_row s d)) <-> In e (edges s) \/ e = dep_pair d.
Proof.
  destruct d as [[[a b] ln] fp]. unfold upsert_row. simpl.
  destruct (find_rel a b (rels s)) eqn:E; unfold edges; simpl.
  - apply find_rel_some in E. split; [tauto|]. intros [H | ->]; auto.
  - rewrite map_app, in_app_iff. unfold rel_pair at 2. simpl.
    split.
    + intros [H | [H | []]]; [left; exact H | right; symmetry; exact H].
    + intros [H | H]; [left; exact H | right; left; symmetry; exact H].
Qed.

Lemma upsert_row_nodes s d n :
  In n (nodes (upsert_row s d))
  <-> In n (nodes s) \/ n = fst (dep_pair d) \/ n = snd (dep_pair d).
Proof.
  destruct d as [[[a b] ln] fp]. unfold upsert_row. simpl.
  assert (In n (merge_node b (merge_node a (nodes s)))
          <-> In n (nodes s) \/ n = a \/ n = b) as H.
  { rewrite !merge_node_in. tauto. }
  destruct (find_rel a b (rels s)); exact H.
Qed.

Lemma upsert_row_wf s d : store_wf s -> store_wf (upsert_row s d).
Proof.
  intros [Hn [He Hend]]. split; [|split].
  - destruct d as [[[a b] ln] fp]. unfold upsert_row.
    destruct (find_rel a b (rels s)); simpl; apply merge_node_nodup, merge_node_nodup, Hn.
  - destruct d as [[[a b] ln] fp]. unfold upsert_row.
    destruct (find_rel a b (rels s)) eqn:E; [exact He|].
    apply find_rel_none in E. unfold edges in *. simpl. rewrite map_app. simpl.
    apply (Permutation_NoDup (Permutation_cons_append _ _)). constructor; auto.
  - intros a b Hab. apply upsert_row_edges in Hab. rewrite !upsert_row_nodes.
    destruct Hab as [Hab | Hab].
    + destruct (Hend a b Hab). auto.
    + rewrite <- Hab. simpl. auto.
Qed.

Lemma batch_edges s ds e :
  In e (edges (batch_create_relationships s ds))
  <-> In e (edges s) \/ In e (map dep_pair ds).
Proof.
  unfold batch_create_relationships. revert s.
  induction ds as [|d r IH]; intros s; simpl; [tauto|].
  rewrite IH, upsert_row_edges. split; intros H; intuition congruence.
Qed.

Lemma batch_nodes s ds n :
  In n (nodes (batch_create_relationships s ds))
  <-> In n (nodes s)
      \/ exists d, In d ds /\ (n = fst (dep_pair d) \/ n = snd (dep_pair d)).
Proof.
  unfold batch_create_relationships. revert s.
  induction ds as [|d r IH]; intros s; simpl.
  - split; [tauto|]. intros [H | [d [[] _]]]. exact H.
  - rewrite IH, upsert_row_nodes. split.
    + intros [[H | H] | [d' [Hd' H]]]; [left; exact H | |].
      * right. exists d. auto.
      * right. exists d'. auto.
    + intros [H | [d' [[<- | Hd'] H]]]; [left; left; exact H | left; right; exact H |].
      right. exists d'. auto.
Qed.

Lemma batch_wf s ds : store_wf s -> store_wf (batch_create_relationships s ds).
Proof.
  unfold batch_create_relationships. revert s.
  induction ds as [|d r IH]; intros s Hs; simpl; [exact Hs|].
  apply IH, upsert_row_wf, Hs.
Qed.

(** Extra (loader.py, [_batch_create_relationships]): on a database with
    no duplicate node or (from, to) relationship and no dangling end, a
    batch keeps all three properties (the [MERGE]s never duplicate), and
    afterwards the (from, to) pairs are those before plus those of the
    rows, and the nodes those before plus the rows' names. *)
Theorem batch_create_wf s ds :
  store_wf s ->
  store_wf (batch_create_relationships s ds)
  /\ (forall e, In e (edges (batch_create_relationships s ds))
                <-> In e (edges s) \/ In e (map dep_pair ds))
  /\ (forall n, In n (nodes (batch_create_relationships s ds))
                <-> In n (nodes s)
                    \/ exists d, In d ds /\ (n = fst (dep_pair d) \/ n = snd (dep_pair d))).
Proof.
  intros Hs. split; [apply batch_wf, Hs|].
  split; intros; [apply batch_edges | apply batch_nodes].
Qed.

Lemma batch_create_wf_witness :
  store_wf empty_store
  /\ store_wf (batch_create_relationships empty_store
                 [("x", "z", 9%Z, "t.py"); ("x", "z", 9%Z, "t.py"); ("z", "y", 11%Z, "t.py")]).
Proof.
  assert (H0 : store_wf empty_store).
  { split; [constructor|]. split; [constructor|]. intros a b []. }
  split; [exact H0|].
  exact (proj1 (batch_create_wf empty_store
                  [("x", "z", 9%Z, "t.py"); ("x", "z", 9%Z, "t.py"); ("z", "y", 11%Z, "t.py")] H0)).
Defined.

Lemma batch_rels s ds :
  NoDup (map dep_pair ds) ->
  rels (batch_create_relationships s ds)
  = rels s ++ map rel_of_dep
                (filter (fun d => negb (existsb (pair_eqb (dep_pair d)) (edges s))) ds).
Proof.
  unfold batch_create_relationships. revert s.
  induction ds as [|d r IH]; intros s Hnd; simpl; [rewrite app_nil_r; reflexivity|].
  inversion Hnd as [|x l Hx Hr]; subst.
  destruct d as [[[a b] ln] fp]. simpl in Hx |- *. unfold upsert_row.
  destruct (find_rel a b (rels s)) eqn:E.
  - apply find_rel_some in E.
    assert (existsb (pair_eqb (a, b)) (edges s) = true) as Ex
      by (apply existsb_pair_in; exact E).
    rewrite Ex. simpl. rewrite IH by exact Hr. reflexivity.
  - assert (existsb (pair_eqb (a, b)) (edges s) = false) as Ex.
    { destruct (existsb (pair_eqb (a, b)) (edges s)) eqn:X; [|reflexivity].
      apply existsb_pair_in in X. apply find_rel_none in E. contradiction. }
    rewrite Ex. simpl. rewrite IH by exact Hr. simpl. rewrite <- app_assoc. simpl.
    f_equal. f_equal. f_equal. apply filter_ext_in. intros d' Hd'.
    unfold edges. simpl. rewrite map_app, existsb_app. simpl.
    assert (pair_eqb (dep_pair d') (a, b) = false) as Hne.
    { destruct (pair_eqb (dep_pair d') (a, b)) eqn:P; [|reflexivity].
      apply pair_eqb_true in P. exfalso. apply Hx. rewrite <- P. apply in_map, Hd'. }
    unfold rel_pair at 2. simpl. rewrite Hne, !orb_false_r. reflexivity.
Qed.

(** Extra (loader.py, [load_from_file]): the number returned is the
    number of entries [find_variable_deps] found (one per distinct pair),
    while the relationships created are exactly those of the entries whose
    pair was not in the database yet, appended in order with their line
    and file; so the count can exceed the number of relationships created
    (for instance on a second load of the same file). *)
Theorem load_from_file_counts s fp tree :
  fst (load_from_file s fp tree) = List.length (find_variable_deps fp tree)
  /\ rels (snd (load_from_file s fp tree))
     = rels s ++ map rel_of_dep
                   (filter (fun d => negb (existsb (pair_eqb (dep_pair d)) (edges s)))
                      (find_variable_deps fp tree))
  /\ List.length (rels (snd (load_from_file s fp tree)))
     <= List.length (rels s) + fst (load_from_file s fp tree).
Proof.
  assert (Hr : rels (snd (load_from_file s fp tree))
               = rels s ++ map rel_of_dep
                   (filter (fun d => negb (existsb (pair_eqb (dep_pair d)) (edges s)))
                      (find_variable_deps fp tree))).
  { unfold load_from_file. pose proof (unique_deps_nodup [] (List.concat (map (visit_stmt fp) tree))) as Hnd.
    fold (find_variable_deps fp tree) in Hnd.
    destruct (find_variable_deps fp tree) as [|d r] eqn:E.
    - simpl. rewrite app_nil_r. reflexivity.
    - apply batch_rels. exact Hnd. }
  assert (Hf : fst (load_from_file s fp tree) = List.length (find_variable_deps fp tree)).
  { unfold load_from_file. destruct (find_variable_deps fp tree); reflexivity. }
  split; [exact Hf|]. split; [exact Hr|]. rewrite Hr, Hf, length_app, length_map.
  pose proof (filter_length_le
                (fun d => negb (existsb (pair_eqb (dep_pair d)) (edges s)))
                (find_variable_deps fp tree)). lia.
Qed.

Lemma load_from_file_fst s fp tree :
  fst (load_from_file s fp tree) = List.length (find_variable_deps fp tree).
Proof. unfold load_from_file. destruct (find_variable_deps fp tree); reflexivity. Qed.

Lemma load_from_file_store s fp tree :
  snd (load_from_file s fp tree)
  = batch_create_relationships s (find_variable_deps fp tree).
Proof. unfold load_from_file. destruct (find_variable_deps fp tree); reflexivity. Qed.

Lemma load_from_directory_fold (P : store -> Prop) files t s :
  (forall st fp tree, P st -> P (snd (load_from_file st fp tree))) ->
  P s ->
  let r := fold_left (fun acc f =>
               let '(total_relationships, st) := acc in
               match snd f with
               | Some tree =>
                   let '(count, st') := load_from_file st (fst f) tree in
                   (total_relationships + count, st')
               | None => (total_relationships, st)
               end) files (t, s) in
  fst r = t + list_sum (map file_count files)
  /\ P (snd r)
  /\ (forall e, In e (edges (snd r))
                <-> In e (edges s)
                    \/ exists fp tree, In (fp, Some tree) files
                         /\ In e (map dep_pair (find_variable_deps fp tree))).
Proof.
  intros HP. revert t s. induction files as [|[fp [tree|]] r IH]; intros t s Hs; simpl.
  - split; [lia|]. split; [exact Hs|]. intros e. split; [tauto|].
    intros [H | [fp [tree [[] _]]]]. exact H.
  - destruct (load_from_file s fp tree) as [count st'] eqn:L.
    assert (count = List.length (find_variable_deps fp tree)) as Hc
      by (rewrite <- (load_from_file_fst s fp tree), L; reflexivity).
    assert (st' = batch_create_relationships s (find_variable_deps fp tree)) as Hst
      by (rewrite <- (load_from_file_store s fp tree), L; reflexivity).
    assert (P st') as HP' by (pose proof (HP s fp tree Hs) as Hx; rewrite L in Hx; exact Hx).
    destruct (IH (t + count) st' HP') as [H1 [H2 H3]].
    split; [etransitivity; [exact H1|];
            change (file_count (fp, Some tree)) with (List.length (find_variable_deps fp tree));
            simpl; lia|].
    split; [exact H2|].
    intros e. rewrite H3, Hst, batch_edges. split.
    + intros [[H | H] | [fp' [tree' [Hin H]]]]; [left; exact H | |].
      * right. exists fp, tree. auto.
      * right. exists fp', tree'. auto.
    + intros [H | [fp' [tree' [[Heq | Hin] H]]]]; [left; left; exact H | |].
      * injection Heq as -> ->. left. right. exact H.
      * right. exists fp', tree'. auto.
  - destruct (IH t s Hs) as [H1 [H2 H3]].
    split; [exact H1|]. split; [exact H2|].
    intros e. rewrite H3. split.
    + intros [H | [fp' [tree' [Hin H]]]]; [left; exact H|]. right. exists fp', tree'. auto.
    + intros [H | [fp' [tree' [[Heq | Hin] H]]]]; [left; exact H | discriminate |].
      right. exists fp', tree'. auto.
Qed.

Lemma list_sum_perm l l' : Permutation l l' -> list_sum l = list_sum l'.
Proof. induction 1; simpl; lia. Qed.

(** Extra (loader.py, [load_from_directory]): the total returned is the
    sum of the per-file counts of the files that parsed (a file that
    raised adds nothing and leaves the database as it was); the (from, to)
    pairs afterwards are those before plus those of every file that parsed,
    the database stays free of duplicates, and neither the total nor the
    set of pairs depends on the order in which [glob] lists the files. *)
Theorem load_from_directory_spec s files :
  fst (load_from_directory s files) = list_sum (map file_count files)
  /\ (forall e, In e (edges (snd (load_from_directory s files)))
                <-> In e (edges s)
                    \/ exists fp tree, In (fp, Some tree) files
                         /\ In e (map dep_pair (find_variable_deps fp tree)))
  /\ (store_wf s -> store_wf (snd (load_from_directory s files)))
  /\ (forall files', Permutation files files' ->
        fst (load_from_directory s files') = fst (load_from_directory s files)
        /\ forall e, In e (edges (snd (load_from_directory s files')))
                     <-> In e (edges (snd (load_from_directory s files)))).
Proof.
  assert (Hgen : forall fs,
            fst (load_from_directory s fs) = list_sum (map file_count fs)
            /\ forall e, In e (edges (snd (load_from_directory s fs)))
                 <-> In e (edges s)
                     \/ exists fp tree, In (fp, Some tree) fs
                          /\ In e (map dep_pair (find_variable_deps fp tree))).
  { intros fs. destruct (load_from_directory_fold (fun _ => True) fs 0 s
                           (fun _ _ _ _ => I) I) as [H1 [_ H3]].
    split; [exact H1 | exact H3]. }
  destruct (Hgen files) as [H1 H2]. split; [exact H1|]. split; [exact H2|]. split.
  - intros Hwf. destruct (load_from_directory_fold store_wf files 0 s) as [_ [H _]];
      [|exact Hwf|exact H].
    intros st fp tree Hst. rewrite load_from_file_store. apply batch_wf, Hst.
  - intros files' Hp. destruct (Hgen files') as [H1' H2']. split.
    + rewrite H1', H1. apply list_sum_perm, Permutation_map, Permutation_sym, Hp.
    + intros e. rewrite H2', H2. split; intros [H | [fp [tree [Hin H]]]]; auto;
        right; exists fp, tree; split; auto;
        [apply (Permutation_in _ (Permutation_sym Hp)) | apply (Permutation_in _ Hp)];
        exact Hin.
Qed.

Lemma load_from_directory_spec_witness :
  fst (load_from_directory empty_store
         [("a.py", Some [Assign [Name "y" Store 1] (Name "x" Load 1) 1]);
          ("bad.py", None)])
  = 1
  /\ (store_wf empty_store ->
      store_wf (snd (load_from_directory empty_store
         [("a.py", Some [Assign [Name "y" Store 1] (Name "x" Load 1) 1]);
          ("bad.py", None)]))).
Proof.
  destruct (load_from_directory_spec empty_store
              [("a.py", Some [Assign [Name "y" Store 1] (Name "x" Load 1) 1]);
               ("bad.py", None)]) as [H1 [_ [H3 _]]].
  split; [rewrite H1; reflexivity | exact H3].
Defined.

(** Extra (loader.py, [clear_database], [load_from_file],
    [load_from_directory]; analyzer.py, [get_metrics]): a database built by
    clearing and then loading a file or a directory (what [main] and the
    CLI do) has no duplicate, its nodes are exactly the names that occur
    in some relationship (a variable assigned only constants, such as
    [temp = 100], is never a node), so the [isolated_variables] query
    returns no row and the metrics report lists no isolated variable. *)
Theorem loaded_graph_no_isolated s fp tree files s' :
  s' = snd (load_from_file (clear_database s) fp tree)
  \/ s' = snd (load_from_directory (clear_database s) files) ->
  store_wf s'
  /\ (forall n, In n (nodes s') <-> exists e, In e (edges s') /\ (fst e = n \/ snd e = n))
  /\ isolated_rows s' = []
  /\ (forall qs cs m r, Permutation (isolated_rows s') r ->
        q_isolated_variables qs = Some r -> get_metrics qs (Some cs) = Some m ->
        isolated_variables m = []).
Proof.
  set (P := fun st : store => store_wf st
              /\ forall n, In n (nodes st) -> exists e, In e (edges st) /\ (fst e = n \/ snd e = n)).
  assert (HP : forall st fp' tree', P st -> P (snd (load_from_file st fp' tree'))).
  { intros st fp' tree' [Hwf Hinc]. rewrite load_from_file_store.
    split; [apply batch_wf, Hwf|]. intros n Hn. apply batch_nodes in Hn.
    destruct Hn as [Hn | [d [Hd Hn]]].
    - destruct (Hinc n Hn) as [e [He Hen]]. exists e. split; [|exact Hen].
      apply batch_edges. left. exact He.
    - exists (dep_pair d). split; [apply batch_edges; right; apply in_map, Hd|].
      destruct Hn; auto. }
  assert (H0 : P (clear_database s)).
  { split; [split; [constructor|]; split; [constructor|]; intros a b []|]. intros n []. }
  intros Hs'. assert (P s') as [Hwf Hinc].
  { destruct Hs' as [-> | ->]; [apply HP, H0|].
    destruct (load_from_directory_fold P files 0 (clear_database s) HP H0) as [_ [H _]].
    exact H. }
  assert (Hiso : isolated_rows s' = []).
  { unfold isolated_rows.
    destruct (filter (fun n => negb (existsb (fun e => String.eqb (fst e) n
                                                     || String.eqb (snd e) n) (edges s')))
                (nodes s')) as [|n rest] eqn:F; [reflexivity|].
    exfalso. assert (In n (n :: rest)) as Hn by (left; reflexivity).
    rewrite <- F in Hn. apply filter_In in Hn. destruct Hn as [Hn Hneg].
    destruct (Hinc n Hn) as [e [He Hen]].
    assert (existsb (fun e => String.eqb (fst e) n || String.eqb (snd e) n) (edges s') = true)
      as Hex.
    { apply existsb_exists. exists e. split; [exact He|].
      destruct Hen as [<- | <-]; rewrite String.eqb_refl; [reflexivity | apply orb_true_r]. }
    rewrite Hex in Hneg. discriminate. }
  split; [exact Hwf|]. split.
  - intros n. split; [apply Hinc|]. intros [[a b] [He [Hn | Hn]]];
      simpl in Hn; subst n; destruct Hwf as [_ [_ Hend]]; apply (Hend a b He).
  - split; [exact Hiso|]. intros qs cs m r Hp Hq Hm.
    unfold get_metrics in Hm. injection Hm as <-. simpl. rewrite Hq.
    rewrite Hiso in Hp. apply Permutation_nil, Hp.
Qed.

Lemma loaded_graph_no_isolated_witness :
  isolated_rows (snd (load_from_file (clear_database st_c2) "f.py"
                   [Assign [Name "y" Store 1] (Name "x" Load 1) 1;
                    Assign [Name "temp" Store 2] (OtherExpr []) 2])) = [].
Proof.
  exact (proj1 (proj2 (proj2
    (loaded_graph_no_isolated st_c2 "f.py"
       [Assign [Name "y" Store 1] (Name "x" Load 1) 1;
        Assign [Name "temp" Store 2] (OtherExpr []) 2] []
       _ (or_introl eq_refl))))).
Defined.

(** ** analyzer.py *)

Lemma picks_perm (l : list edge) x rest :
  In (x, rest) (picks l) -> Permutation l (x :: rest).
Proof.
  revert x rest. induction l as [|y r IH]; intros x rest H; simpl in H; [destruct H|].
  destruct H as [H | H].
  - injection H as -> ->. reflexivity.
  - apply in_map_iff in H. destruct H as [[x' rest'] [Heq Hin]].
    simpl in Heq. injection Heq as -> <-.
    apply IH in Hin. rewrite Hin. apply perm_swap.
Qed.

Lemma picks_app (l1 : list edge) x l2 : In (x, l1 ++ l2) (picks (l1 ++ x :: l2)).
Proof.
  induction l1 as [|a r IH]; simpl; [left; reflexivity|].
  right. apply (in_map (fun p => (fst p, a :: snd p))) in IH. exact IH.
Qed.

Lemma picks_of_perm (l : list edge) x r :
  Permutation l (x :: r) -> exists r', In (x, r') (picks l) /\ Permutation r' r.
Proof.
  intros Hp. assert (In x l) as Hx by (apply (Permutation_in _ (Permutation_sym Hp)); left; reflexivity).
  apply in_split in Hx. destruct Hx as [l1 [l2 ->]].
  exists (l1 ++ l2). split; [apply picks_app|].
  apply (Permutation_app_inv l1 l2 [] r x). exact Hp.
Qed.

Lemma trails_iff fuel rem cur t :
  In t (trails fuel rem cur)
  <-> t <> [] /\ List.length t <= fuel
      /\ exists rest, Permutation rem (walk_edges cur t ++ rest).
Proof.
  split.
  - revert rem cur t. induction fuel as [|f IH]; intros rem cur t H; [destruct H|].
    apply in_trails_step in H. destruct H as [b [rest [Hp [-> | [t' [-> Ht']]]]]].
    + split; [discriminate|]. split; [simpl; lia|]. exists rest. apply picks_perm, Hp.
    + destruct (IH _ _ _ Ht') as [Hne [Hl [rest' Hr]]].
      split; [discriminate|]. split; [simpl; lia|]. exists rest'.
      rewrite (picks_perm _ _ _ Hp). simpl. apply perm_skip, Hr.
  - revert fuel rem cur. induction t as [|b r IH]; intros fuel rem cur [Hne [Hl [rest Hp]]];
      [contradiction|].
    destruct fuel as [|f]; [simpl in Hl; lia|]. apply in_trails_step.
    simpl in Hp. destruct (picks_of_perm _ _ _ Hp) as [r' [Hr' Hp']].
    exists b, r'. split; [exact Hr'|].
    destruct r as [|c r]; [left; reflexivity|]. right. exists (c :: r). split; [reflexivity|].
    apply IH. split; [discriminate|]. split; [simpl in Hl |- *; lia|]. exists rest. exact Hp'.
Qed.

Lemma var_trails_iff es cur t : In t (var_trails es cur) <-> trail es cur t.
Proof.
  unfold var_trails, trail. rewrite trails_iff. split.
  - intros [H1 [_ H3]]. auto.
  - intros [H1 [rest Hp]]. split; [exact H1|]. split; [|exists rest; exact Hp].
    apply Permutation_length in Hp. rewrite Hp, length_app, walk_edges_length. lia.
Qed.

Lemma trail_walk es cur t : trail es cur t -> walk es cur t.
Proof.
  intros [Hne [rest Hp]]. revert cur rest Hp. clear Hne.
  induction t as [|b r IH]; intros cur rest Hp; simpl; [exact I|]. split.
  - apply (Permutation_in _ (Permutation_sym Hp)). left. reflexivity.
  - apply (IH b ((cur, b) :: rest)). simpl in Hp. rewrite Hp.
    apply Permutation_middle.
Qed.

Lemma all_vars_reach es v n :
  In n (all_vars (reach_result_of v (reach_rows es v))) <-> n <> v /\ reach es v n.
Proof.
  rewrite (proj1 (reach_result_names es v n)). split.
  - intros [t [Ht [He Hne]]]. split; [exact Hne|].
    destruct (trails_sound _ _ _ _ Ht) as [Htne Hw]. rewrite <- He.
    apply walk_reach; assumption.
  - intros [Hne Hr]. destruct (reach_in_trails es v n Hr Hne) as [t [Ht He]].
    exists t. auto.
Qed.

Lemma reverse_edges_involutive es : map reverse_edge (map reverse_edge es) = es.
Proof.
  rewrite map_map. rewrite <- (map_id es) at 2. apply map_ext.
  intros [a b]. reflexivity.
Qed.

Lemma reach_reverse_iff es u v : reach (map reverse_edge es) v u <-> reach es u v.
Proof.
  split; [|apply reach_reverse].
  intros H. apply reach_reverse in H. rewrite reverse_edges_involutive in H. exact H.
Qed.

Lemma reach_result_empty es v :
  (all_vars (reach_result_of v (reach_rows es v)) = []
   <-> forall u, reach es v u -> u = v)
  /\ (all_vars (reach_result_of v (reach_rows es v)) = [] ->
      total (reach_result_of v (reach_rows es v)) = 0
      /\ depths (reach_result_of v (reach_rows es v)) = []
      /\ direct (reach_result_of v (reach_rows es v)) = []
      /\ transitive (reach_result_of v (reach_rows es v)) = []).
Proof.
  split.
  - split.
    + intros H u Hr. destruct (string_dec u v) as [-> | Hne]; [reflexivity|].
      exfalso. assert (In u (all_vars (reach_result_of v (reach_rows es v)))) as Hin
        by (apply all_vars_reach; auto).
      rewrite H in Hin. destruct Hin.
    + intros H. destruct (all_vars (reach_result_of v (reach_rows es v))) as [|n r] eqn:E;
        [reflexivity|].
      exfalso. assert (In n (all_vars (reach_result_of v (reach_rows es v)))) as Hin
        by (rewrite E; left; reflexivity).
      apply all_vars_reach in Hin. destruct Hin as [Hne Hr]. exact (Hne (H n Hr)).
  - intros H.
    assert (forall n, ~ In n (map fst (depths (reach_result_of v (reach_rows es v))))) as Hnk.
    { intros n Hn. apply (proj1 (proj2 (reach_result_names es v n))) in Hn.
      rewrite H in Hn. destruct Hn. }
    assert (Hd : forall n, In n (direct (reach_result_of v (reach_rows es v)))
                 \/ In n (transitive (reach_result_of v (reach_rows es v))) ->
                 In n (map fst (depths (reach_result_of v (reach_rows es v)))))
      by (intros n; apply (proj2 (proj2 (reach_result_names es v n)))).
    set (R := reach_result_of v (reach_rows es v)) in *.
    split; [|split; [|split]].
    + change (total R) with (List.length (all_vars R)). rewrite H. reflexivity.
    + destruct (depths R) as [|[n k] r] eqn:E;
        [reflexivity|]. exfalso. apply (Hnk n). rewrite ?E. left. reflexivity.
    + destruct (direct R) as [|n r] eqn:E;
        [reflexivity|]. exfalso. apply (Hnk n), Hd. left. rewrite ?E. left. reflexivity.
    + destruct (transitive R) as [|n r] eqn:E;
        [reflexivity|]. exfalso. apply (Hnk n), Hd. right. rewrite ?E. left. reflexivity.
Qed.

(** Extra (analyzer.py, [find_dependencies] and [find_impact], edge
    case): [find_dependencies v] is empty (no names, total 0, empty depth
    map, no direct or transitive entry) exactly when [v] reaches no other
    node, in particular when [v] has no outgoing relationship (a name
    that is not in the graph) or only a self-loop; [find_impact v] likewise exactly
    when no other node reaches [v].  It returns this empty result rather
    than an error. *)
Theorem reach_results_empty s v :
  (all_vars (find_dependencies s v) = [] <-> forall u, reach (edges s) v u -> u = v)
  /\ (all_vars (find_dependencies s v) = [] ->
      total (find_dependencies s v) = 0 /\ depths (find_dependencies s v) = []
      /\ direct (find_dependencies s v) = [] /\ transitive (find_dependencies s v) = [])
  /\ (all_vars (find_impact s v) = [] <-> forall u, reach (edges s) u v -> u = v)
  /\ (all_vars (find_impact s v) = [] ->
      total (find_impact s v) = 0 /\ depths (find_impact s v) = []
      /\ direct (find_impact s v) = [] /\ transitive (find_impact s v) = []).
Proof.
  destruct (reach_result_empty (edges s) v) as [H1 H2].
  destruct (reach_result_empty (map reverse_edge (edges s)) v) as [H3 H4].
  split; [exact H1|]. split; [exact H2|]. split; [|exact H4].
  unfold find_impact. rewrite H3. split; intros H u Hr; apply H;
    [apply reach_reverse_iff, Hr | apply reach_reverse_iff, Hr].
Qed.

Lemma reach_results_empty_witness :
  total (find_dependencies st_line "b") = 0
  /\ depths (find_dependencies st_line "b") = [].
Proof.
  destruct (reach_results_empty st_line "b") as [[_ H1] [H2 _]].
  assert (Hr : forall u, reach (edges st_line) "b" u -> u = "b").
  { intros u Hr. inversion Hr as [a b' Hin | a b' c Hin _]; subst;
      simpl in Hin; destruct Hin as [H | []]; discriminate. }
  destruct (H2 (H1 Hr)) as [Ht [Hd _]]. split; [exact Ht | exact Hd].
Defined.

(** Extra (analyzer.py, [find_impact] and [find_dependencies]): the two
    analyses are converse: [u] is among the variables affected by [v]
    exactly when [v] is among the dependencies of [u], exactly when
    [u <> v] and there is a path of [DEPENDS_ON] relationships from [u]
    to [v]; the same holds for the keys of the two depth maps. *)
Theorem impact_dependencies_dual s u v :
  (In u (all_vars (find_impact s v)) <-> u <> v /\ reach (edges s) u v)
  /\ (In v (all_vars (find_dependencies s u)) <-> u <> v /\ reach (edges s) u v)
  /\ (In u (map fst (depths (find_impact s v)))
      <-> In v (map fst (depths (find_dependencies s u)))).
Proof.
  assert (H1 : In u (all_vars (find_impact s v)) <-> u <> v /\ reach (edges s) u v).
  { unfold find_impact. rewrite all_vars_reach, reach_reverse_iff. tauto. }
  assert (H2 : In v (all_vars (find_dependencies s u)) <-> u <> v /\ reach (edges s) u v).
  { unfold find_dependencies. rewrite all_vars_reach. split; intros [Hne Hr]; auto. }
  split; [exact H1|]. split; [exact H2|].
  unfold find_impact, find_dependencies.
  rewrite (proj1 (proj2 (reach_result_names _ v u))),
          (proj1 (proj2 (reach_result_names _ u v))).
  fold (find_impact s v) (find_dependencies s u). rewrite H1, H2. tauto.
Qed.

Lemma find_app {A} (f : A -> bool) l1 l2 :
  find f (l1 ++ l2) = match find f l1 with Some x => Some x | None => find f l2 end.
Proof.
  induction l1 as [|x r IH]; simpl; [reflexivity|]. destruct (f x); [reflexivity | exact IH].
Qed.

Lemma fold_dict_get {V} (rows : list (string * V)) d0 k :
  dict_get k (fold_left (fun d r => dict_set (fst r) (snd r) d) rows d0)
  = match find (fun r => String.eqb (fst r) k) (rev rows) with
    | Some r => Some (snd r)
    | None => dict_get k d0
    end.
Proof.
  revert d0. induction rows as [|[k1 v1] r IH]; intros d0; simpl; [reflexivity|].
  rewrite IH, find_app. destruct (find _ (rev r)); [reflexivity|]. simpl.
  clear IH. induction d0 as [|[k0 v0] d IHd]; simpl.
  - rewrite (String.eqb_sym k k1). destruct (String.eqb k1 k); reflexivity.
  - destruct (String.eqb_spec k1 k0) as [-> | Hne]; simpl.
    + rewrite (String.eqb_sym k k0). destruct (String.eqb k0 k); reflexivity.
    + destruct (String.eqb_spec k k0) as [-> | Hne']; [|exact IHd].
      destruct (String.eqb_spec k1 k0); [contradiction | reflexivity].
Qed.

Lemma find_split {A} (f : A -> bool) l x :
  find f l = Some x ->
  exists l1 l2, l = l1 ++ x :: l2 /\ f x = true /\ forall y, In y l1 -> f y = false.
Proof.
  induction l as [|y r IH]; simpl; [discriminate|]. intros H.
  destruct (f y) eqn:E.
  - injection H as <-. exists [], r. split; [reflexivity|]. split; [exact E | intros _ []].
  - destruct (IH H) as [l1 [l2 [-> [Hx Hl1]]]]. exists (y :: l1), l2.
    split; [reflexivity|]. split; [exact Hx|]. intros z [<- | Hz]; [exact E | apply Hl1, Hz].
Qed.

Lemma dict_get_sorted_rows (rows : list (string * nat)) u k :
  StronglySorted (fun p q => snd p <= snd q) rows ->
  dict_get u (fold_left (fun d r => dict_set (fst r) (snd r) d) rows [])
    = Some k
  <-> In (u, k) rows /\ forall k', In (u, k') rows -> k' <= k.
Proof.
  intros Hs. rewrite fold_dict_get.
  assert (Hmax : forall r, find (fun r => String.eqb (fst r) u) (rev rows) = Some r ->
            fst r = u /\ In r rows /\ forall k', In (u, k') rows -> k' <= snd r).
  { intros r Hf. apply find_split in Hf. destruct Hf as [l1 [l2 [Hl [Hr Hl1]]]].
    apply String.eqb_eq in Hr.
    assert (rows = rev l2 ++ r :: rev l1) as Hrows.
    { rewrite <- (rev_involutive rows), Hl, rev_app_distr. simpl.
      rewrite <- app_assoc. reflexivity. }
    split; [exact Hr|]. split; [rewrite Hrows; apply in_or_app; right; left; reflexivity|].
    intros k' Hk'. rewrite Hrows in Hk', Hs. apply in_app_or in Hk'.
    destruct Hk' as [Hk' | [Hk' | Hk']].
    - apply (strongly_sorted_app _ _ _ (u, k') r Hs Hk'). left. reflexivity.
    - rewrite Hk'. simpl. lia.
    - apply in_rev in Hk'. apply Hl1 in Hk'. simpl in Hk'.
      rewrite String.eqb_refl in Hk'. discriminate. }
  split.
  - destruct (find _ (rev rows)) as [r|] eqn:Hf; [|discriminate].
    intros Hk. injection Hk as Hk. destruct (Hmax r eq_refl) as [Hu [Hin Hle]].
    destruct r as [u' k'']. simpl in Hu, Hk. subst u' k''. split; assumption.
  - intros [Hin Hle]. destruct (find _ (rev rows)) as [r|] eqn:Hf.
    + destruct (Hmax r eq_refl) as [Hu [Hr Hle']]. destruct r as [u' k'']. simpl in *.
      subst u'. f_equal. apply Nat.le_antisymm; [apply Hle, Hr | apply Hle', Hin].
    + exfalso. apply in_rev in Hin.
      apply (find_none _ _ Hf) in Hin. simpl in Hin. rewrite String.eqb_refl in Hin.
      discriminate.
Qed.

Lemma dict_set_nodup {V} k (v : V) d :
  NoDup (map fst d) -> NoDup (map fst (dict_set k v d)).
Proof.
  induction d as [|[k0 v0] r IH]; simpl; intros H; [constructor; [intros []|constructor]|].
  apply NoDup_cons_iff in H. destruct H as [Hn Hr].
  destruct (String.eqb_spec k k0) as [-> | Hne]; simpl.
  - constructor; assumption.
  - constructor; [|apply IH, Hr]. rewrite dict_set_keys. intros [H | H]; [congruence | auto].
Qed.

Lemma fold_dict_nodup {V} (rows : list (string * V)) d0 :
  NoDup (map fst d0) ->
  NoDup (map fst (fold_left (fun d r => dict_set (fst r) (snd r) d) rows d0)).
Proof.
  revert d0. induction rows as [|r rs IH]; intros d0 H; simpl; [exact H|].
  apply IH, dict_set_nodup, H.
Qed.

Lemma dict_get_in {V} (d : list (string * V)) k v :
  NoDup (map fst d) -> (dict_get k d = Some v <-> In (k, v) d).
Proof.
  induction d as [|[k0 v0] r IH]; simpl; intros H; [split; [discriminate | intros []]|].
  apply NoDup_cons_iff in H. destruct H as [Hn Hr].
  destruct (String.eqb_spec k k0) as [-> | Hne].
  - split; [intros Hv; injection Hv as ->; left; reflexivity|].
    intros [Hv | Hv]; [injection Hv as ->; reflexivity|].
    exfalso. apply Hn. apply (in_map fst) in Hv. exact Hv.
  - rewrite IH by exact Hr. split; [intros Hv; right; exact Hv|].
    intros [Hv | Hv]; [injection Hv; congruence | exact Hv].
Qed.

Lemma reach_rows_strongly_sorted es v :
  StronglySorted (fun p q => snd p <= snd q) (reach_rows es v).
Proof.
  apply Sorted_StronglySorted; [intros x y z H1 H2; lia|].
  apply sort_by_sorted; intros [a n] [b m]; unfold row_leb; simpl.
  - rewrite orb_true_iff, andb_true_iff, Nat.ltb_lt, Nat.eqb_eq. lia.
  - rewrite orb_false_iff, Nat.ltb_ge. lia.
Qed.

Lemma reach_result_depth es v u k :
  (dict_get u (depths (reach_result_of v (reach_rows es v))) = Some k
   <-> u <> v
       /\ (exists t, trail es v t /\ path_end v t = u /\ List.length t = k)
       /\ forall t, trail es v t -> path_end v t = u -> List.length t <= k)
  /\ (In u (direct (reach_result_of v (reach_rows es v)))
      <-> dict_get u (depths (reach_result_of v (reach_rows es v))) = Some 1)
  /\ (In u (transitive (reach_result_of v (reach_rows es v)))
      <-> exists k', dict_get u (depths (reach_result_of v (reach_rows es v))) = Some k'
                     /\ 1 < k').
Proof.
  change (depths (reach_result_of v (reach_rows es v)))
    with (fold_left (fun d r => dict_set (fst r) (snd r) d) (reach_rows es v) []).
  assert (Hnd : NoDup (map fst (fold_left (fun d r => dict_set (fst r) (snd r) d)
                                  (reach_rows es v) [])))
    by (apply fold_dict_nodup; constructor).
  split; [|split].
  - rewrite (dict_get_sorted_rows _ _ _ (reach_rows_strongly_sorted es v)).
    split.
    + intros [Hin Hle]. apply reach_rows_in in Hin.
      destruct Hin as [t [Ht [He [Hne Hk]]]]. split; [exact Hne|].
      split; [exists t; rewrite <- var_trails_iff; auto|].
      intros t' Ht' He'. apply Hle. apply reach_rows_in. exists t'.
      rewrite var_trails_iff. subst u. auto.
    + intros [Hne [[t [Ht [He Hk]]] Hle]]. split.
      * apply reach_rows_in. exists t. rewrite var_trails_iff. auto.
      * intros k' Hk'. apply reach_rows_in in Hk'. destruct Hk' as [t' [Ht' [He' [_ <-]]]].
        apply Hle; [apply var_trails_iff, Ht' | exact He'].
  - rewrite (dict_get_in _ _ _ Hnd). simpl. rewrite in_map_iff. split.
    + intros [[x d] [Hx Hf]]. apply filter_In in Hf. destruct Hf as [Hf Hd].
      simpl in Hx, Hd. apply Nat.eqb_eq in Hd. subst. exact Hf.
    + intros Hin. exists (u, 1). split; [reflexivity|]. apply filter_In. auto.
  - simpl. rewrite in_map_iff. split.
    + intros [[x d] [Hx Hf]]. apply filter_In in Hf. destruct Hf as [Hf Hd].
      simpl in Hx, Hd. apply Nat.ltb_lt in Hd. subst. exists d.
      split; [apply dict_get_in; assumption | exact Hd].
    + intros [d [Hin Hd]]. apply (dict_get_in _ _ _ Hnd) in Hin.
      exists (u, d). split; [reflexivity|]. apply filter_In. split; [exact Hin|].
      apply Nat.ltb_lt, Hd.
Qed.

(** Extra (analyzer.py, [find_dependencies] and [find_impact]): the depth
    that [find_dependencies v] records for [u] is the length of the longest
    relationship-unique path from [v] to [u] (the dict comprehension keeps
    the last row per name, and the rows come in increasing depth); [u] is a
    direct dependency exactly when that depth is 1 and a transitive one
    exactly when it is greater.  The same holds for [find_impact v] with
    the paths from [u] to [v], read backwards over the reversed
    relationships. *)
Theorem reported_depth_longest s v u k :
  (dict_get u (depths (find_dependencies s v)) = Some k
   <-> u <> v
       /\ (exists t, trail (edges s) v t /\ path_end v t = u /\ List.length t = k)
       /\ forall t, trail (edges s) v t -> path_end v t = u -> List.length t <= k)
  /\ (In u (direct (find_dependencies s v))
      <-> dict_get u (depths (find_dependencies s v)) = Some 1)
  /\ (In u (transitive (find_dependencies s v))
      <-> exists k', dict_get u (depths (find_dependencies s v)) = Some k' /\ 1 < k')
  /\ (dict_get u (depths (find_impact s v)) = Some k
   <-> u <> v
       /\ (exists t, trail (map reverse_edge (edges s)) v t /\ path_end v t = u
                     /\ List.length t = k)
       /\ forall t, trail (map reverse_edge (edges s)) v t -> path_end v t = u ->
                    List.length t <= k)
  /\ (In u (direct (find_impact s v))
      <-> dict_get u (depths (find_impact s v)) = Some 1)
  /\ (In u (transitive (find_impact s v))
      <-> exists k', dict_get u (depths (find_impact s v)) = Some k' /\ 1 < k').
Proof.
  destruct (reach_result_depth (edges s) v u k) as [H1 [H2 H3]].
  destruct (reach_result_depth (map reverse_edge (edges s)) v u k) as [H4 [H5 H6]].
  unfold find_dependencies, find_impact.
  exact (conj H1 (conj H2 (conj H3 (conj H4 (conj H5 H6))))).
Qed.

Lemma reported_depth_longest_witness :
  dict_get "c" (depths (find_dependencies st_c2 "a")) = Some 3
  /\ forall t, trail (edges st_c2) "a" t -> path_end "a" t = "c" -> List.length t <= 3.
Proof.
  assert (H : dict_get "c" (depths (find_dependencies st_c2 "a")) = Some 3)
    by (vm_compute; reflexivity).
  split; [exact H|].
  exact (proj2 (proj2 (proj1 (proj1 (reported_depth_longest st_c2 "a" "c" 3)) H))).
Defined.

Lemma walk_edges_targets s t : map snd (walk_edges s t) = t.
Proof.
  revert s. induction t as [|b r IH]; intros s; simpl; [reflexivity | rewrite IH; reflexivity].
Qed.

Lemma perm_of_nodup_incl (w es : list edge) :
  NoDup w -> incl w es -> exists rest, Permutation es (w ++ rest).
Proof.
  revert es. induction w as [|x w IH]; intros es Hn Hi.
  - exists es. reflexivity.
  - apply NoDup_cons_iff in Hn. destruct Hn as [Hx Hn].
    assert (In x es) as Hxe by (apply Hi; left; reflexivity).
    apply in_split in Hxe. destruct Hxe as [l1 [l2 ->]].
    destruct (IH (l1 ++ l2) Hn) as [rest Hr].
    { intros y Hy. assert (In y (l1 ++ x :: l2)) as Hy' by (apply Hi; right; exact Hy).
      apply in_app_or in Hy'. apply in_or_app. destruct Hy' as [H | [H | H]]; auto.
      subst y. contradiction. }
    exists rest. rewrite <- Permutation_middle. simpl. apply perm_skip, Hr.
Qed.

Lemma trail_of_simple es s t :
  t <> [] -> walk es s t -> NoDup t -> trail es s t.
Proof.
  intros Hne Hw Hn. split; [exact Hne|]. apply perm_of_nodup_incl.
  - apply (NoDup_map_inv snd). rewrite walk_edges_targets. exact Hn.
  - apply walk_edges_incl, Hw.
Qed.

Lemma walk_shorten es s t :
  walk es s t -> t <> [] ->
  exists t', t' <> [] /\ walk es s t' /\ NoDup t' /\ path_end s t' = path_end s t
             /\ List.length t' <= List.length t.
Proof.
  unfold path_end. revert s. induction t as [|b r IH]; intros s Hw Hne; [contradiction|].
  destruct Hw as [Hsb Hw]. destruct r as [|c r].
  - exists [b]. split; [discriminate|]. split; [simpl; auto|].
    split; [constructor; [intros [] | constructor]|]. auto.
  - destruct (IH b Hw ltac:(discriminate)) as [t'' [Hne'' [Hw'' [Hn'' [He'' Hl'']]]]].
    rewrite (last_cons_nonempty b (c :: r) s) by discriminate.
    destruct (in_dec string_dec b t'') as [Hin | Hnin].
    + apply in_split in Hin. destruct Hin as [q1 [q2 Hq]].
      exists (b :: q2). split; [discriminate|]. split.
      { split; [exact Hsb|]. apply (walk_app es b q1). rewrite <- Hq. exact Hw''. }
      split; [rewrite Hq in Hn''; apply NoDup_app_remove_l in Hn''; exact Hn''|].
      split.
      * rewrite <- He'', Hq. destruct q2 as [|d q2].
        -- rewrite last_last. reflexivity.
        -- rewrite last_app_nonempty by discriminate.
           rewrite !(last_cons_nonempty b (d :: q2)) by discriminate.
           apply last_default_irrelevant; discriminate.
      * assert (List.length (b :: q2) <= List.length t'') as Hl.
        { rewrite Hq, length_app. simpl. lia. }
        simpl in *. lia.
    + exists (b :: t''). split; [discriminate|]. split; [split; assumption|].
      split; [constructor; assumption|].
      split; [rewrite last_cons_nonempty by exact Hne''; exact He''|].
      simpl in *. lia.
Qed.

Lemma path_rows_in es a b p :
  In p (path_rows es a b) <-> exists t, p = a :: t /\ trail es a t /\ path_end a t = b.
Proof.
  unfold path_rows. rewrite in_map_iff. split.
  - intros [t [<- Ht]]. apply filter_In in Ht. destruct Ht as [Ht He].
    apply String.eqb_eq in He. apply var_trails_iff in Ht. exists t. auto.
  - intros [t [-> [Ht He]]]. exists t. split; [reflexivity|]. apply filter_In.
    split; [apply var_trails_iff, Ht | apply String.eqb_eq, He].
Qed.

Lemma trail_length es a t : trail es a t -> List.length t <= List.length es.
Proof.
  intros [_ [rest Hp]]. apply Permutation_length in Hp.
  rewrite Hp, length_app, walk_edges_length. lia.
Qed.

(** Extra (analyzer.py, [find_path]): every path [find_path a b] returns
    is [a] followed by a path to [b] that uses each relationship at most
    once, so it has at most one node more than the graph has
    relationships; and when fewer than 20 paths come back, the answer is
    complete: every such path from [a] to [b] is among them. *)
Theorem find_path_relationship_unique s a b paths :
  find_path_result s a b paths ->
  (forall p, In p paths ->
     exists t, p = a :: t /\ trail (edges s) a t /\ path_end a t = b
               /\ List.length p <= S (List.length (edges s)))
  /\ (List.length paths < 20 ->
      forall t, trail (edges s) a t -> path_end a t = b -> In (a :: t) paths).
Proof.
  intros [full [Hp [Hs ->]]]. split.
  - intros p Hin. apply in_firstn in Hin.
    apply (Permutation_in _ (Permutation_sym Hp)), path_rows_in in Hin.
    destruct Hin as [t [-> [Ht He]]]. exists t. split; [reflexivity|].
    split; [exact Ht|]. split; [exact He|]. apply trail_length in Ht. simpl. lia.
  - intros Hl t Ht He. rewrite length_firstn in Hl.
    rewrite firstn_all2 by lia. apply (Permutation_in _ Hp), path_rows_in.
    exists t. auto.
Qed.

Lemma find_path_relationship_unique_witness :
  find_path_result st_c2 "a" "a" [["a"; "b"; "a"]]
  /\ forall t, trail (edges st_c2) "a" t -> path_end "a" t = "a" ->
     In ("a" :: t) [["a"; "b"; "a"]].
Proof.
  assert (H : find_path_result st_c2 "a" "a" [["a"; "b"; "a"]]).
  { exists [["a"; "b"; "a"]]. split; [vm_compute; apply Permutation_refl|].
    split; [repeat constructor | reflexivity]. }
  split; [exact H|].
  apply (proj2 (find_path_relationship_unique st_c2 "a" "a" _ H)). simpl. lia.
Defined.

(** Extra (analyzer.py, [find_path]): the first path [find_path a b]
    returns is a shortest one: no walk from [a] to [b] along [DEPENDS_ON]
    relationships, repeated nodes and relationships allowed, has fewer
    nodes. *)
Theorem find_path_first_shortest s a b paths p0 rest :
  find_path_result s a b paths -> paths = p0 :: rest ->
  forall t, walk (edges s) a t -> t <> [] -> path_end a t = b ->
            List.length p0 <= S (List.length t).
Proof.
  intros [full [Hp [Hs ->]]] Hpaths t Hw Hne He.
  destruct full as [|q full']; [discriminate|]. simpl in Hpaths.
  injection Hpaths as -> _.
  destruct (walk_shorten _ _ _ Hw Hne) as [t' [Hne' [Hw' [Hn' [He' Hl']]]]].
  assert (In (a :: t') (p0 :: full')) as Hin.
  { apply (Permutation_in _ Hp), path_rows_in. exists t'. split; [reflexivity|].
    split; [apply trail_of_simple; assumption | rewrite He'; exact He]. }
  destruct Hin as [-> | Hin]; [simpl; lia|].
  apply Sorted_StronglySorted in Hs; [|intros x y z H1 H2; lia].
  apply StronglySorted_inv in Hs. destruct Hs as [_ Hall].
  rewrite Forall_forall in Hall. specialize (Hall _ Hin). simpl in Hall. lia.
Qed.

Lemma find_path_first_shortest_witness :
  find_path_result st_c2 "a" "c" [["a"; "c"]; ["a"; "b"; "a"; "c"]]
  /\ forall t, walk (edges st_c2) "a" t -> t <> [] -> path_end "a" t = "c" ->
     2 <= S (List.length t).
Proof.
  assert (H : find_path_result st_c2 "a" "c" [["a"; "c"]; ["a"; "b"; "a"; "c"]]).
  { exists [["a"; "c"]; ["a"; "b"; "a"; "c"]].
    split; [vm_compute; first [apply Permutation_refl | apply perm_swap]|].
    split; [repeat constructor; simpl; lia | reflexivity]. }
  split; [exact H|].
  exact (find_path_first_shortest st_c2 "a" "c" _ ["a"; "c"] [["a"; "b"; "a"; "c"]]
           H eq_refl).
Defined.

Lemma in_degree_pos es x b : In (x, b) es -> in_degree es b <> 0.
Proof.
  intros H. unfold in_degree.
  assert (In (x, b) (filter (fun e => String.eqb (snd e) b) es)) as Hf
    by (apply filter_In; split; [exact H | apply String.eqb_refl]).
  destruct (filter _ es); [destruct Hf | discriminate].
Qed.

Lemma reach_last_edge es a b : reach es a b -> exists x, In (x, b) es.
Proof. induction 1 as [a b H | a b c _ _ IH]; [exists a; exact H | exact IH]. Qed.

Lemma critical_rows_in s q :
  In q (critical_rows s)
  <-> exists a t, q = a :: t /\ In a (nodes s) /\ in_degree (edges s) a = 0
                  /\ trail (edges s) a t /\ out_degree (edges s) (path_end a t) = 0.
Proof.
  unfold critical_rows. rewrite in_flat_map. split.
  - intros [a [Ha Hq]]. destruct (Nat.eqb_spec (in_degree (edges s) a) 0) as [Hd | Hd];
      [|destruct Hq].
    apply in_map_iff in Hq. destruct Hq as [t [<- Ht]]. apply filter_In in Ht.
    destruct Ht as [Ht Ho]. apply Nat.eqb_eq in Ho. apply var_trails_iff in Ht.
    exists a, t. auto.
  - intros [a [t [-> [Ha [Hd [Ht Ho]]]]]]. exists a. split; [exact Ha|].
    rewrite Hd. simpl. apply in_map. apply filter_In.
    split; [apply var_trails_iff, Ht | apply Nat.eqb_eq, Ho].
Qed.

(** Extra (analyzer.py, [get_critical_path]): the answer is [[]] exactly
    when no node without incoming relationships reaches a node without
    outgoing ones (for instance when every node lies on a cycle);
    otherwise it is the node list of a path from such a root to such a
    leaf that uses each relationship at most once, and no other such path
    is longer. *)
Theorem critical_path_spec s p :
  get_critical_path_result s p ->
  (p = [] <-> ~ exists a b, In a (nodes s) /\ in_degree (edges s) a = 0
                            /\ out_degree (edges s) b = 0 /\ reach (edges s) a b)
  /\ (p <> [] ->
      exists a t, p = a :: t /\ In a (nodes s) /\ in_degree (edges s) a = 0
                  /\ trail (edges s) a t /\ out_degree (edges s) (path_end a t) = 0
                  /\ forall a' t', In a' (nodes s) -> in_degree (edges s) a' = 0 ->
                     trail (edges s) a' t' -> out_degree (edges s) (path_end a' t') = 0 ->
                     List.length t' <= List.length t).
Proof.
  intros [full [Hp [Hs Hpe]]].
  assert (Hfull : forall q, In q full <->
            exists a t, q = a :: t /\ In a (nodes s) /\ in_degree (edges s) a = 0
                        /\ trail (edges s) a t /\ out_degree (edges s) (path_end a t) = 0).
  { intros q. rewrite <- critical_rows_in. split; apply Permutation_in;
      [apply Permutation_sym|]; exact Hp. }
  split.
  - split.
    + intros Hnil [a [b [Ha [Hd [Ho Hr]]]]].
      assert (b <> a) as Hba.
      { intros ->. destruct (reach_last_edge _ _ _ Hr) as [x Hx].
        exact (in_degree_pos _ _ _ Hx Hd). }
      destruct (reach_in_trails _ _ _ Hr Hba) as [t [Ht He]].
      apply var_trails_iff in Ht.
      assert (In (a :: t) full) as Hin by (apply Hfull; exists a, t; rewrite He; auto).
      destruct full as [|q full']; [destruct Hin|]. simpl in Hpe. subst p.
      destruct (proj1 (Hfull q) (or_introl eq_refl)) as [a' [t' [Hq _]]].
      rewrite Hq in Hnil. discriminate.
    + intros Hno. destruct full as [|q full']; [exact Hpe|]. exfalso. apply Hno.
      destruct (proj1 (Hfull q) (or_introl eq_refl)) as [a [t [_ [Ha [Hd [Ht Ho]]]]]].
      exists a, (path_end a t). split; [exact Ha|]. split; [exact Hd|].
      split; [exact Ho|]. apply walk_reach; [apply Ht | apply trail_walk, Ht].
  - intros Hne. destruct full as [|q full']; [simpl in Hpe; contradiction|].
    simpl in Hpe. subst p.
    destruct (proj1 (Hfull q) (or_introl eq_refl)) as [a [t [Hq [Ha [Hd [Ht Ho]]]]]].
    exists a, t. repeat (split; [assumption|]).
    intros a' t' Ha' Hd' Ht' Ho'.
    assert (In (a' :: t') (q :: full')) as Hin by (apply Hfull; exists a', t'; auto).
    destruct Hin as [Heq | Hin].
    + rewrite Hq in Heq. injection Heq as _ ->. lia.
    + apply Sorted_StronglySorted in Hs; [|intros x y z H1 H2; lia].
      apply StronglySorted_inv in Hs. destruct Hs as [_ Hall].
      rewrite Forall_forall in Hall. specialize (Hall _ Hin). rewrite Hq in Hall.
      simpl in Hall. lia.
Qed.

Lemma critical_path_spec_witness :
  get_critical_path_result st_line ["a"; "b"]
  /\ forall a' t', In a' (nodes st_line) -> in_degree (edges st_line) a' = 0 ->
     trail (edges st_line) a' t' -> out_degree (edges st_line) (path_end a' t') = 0 ->
     List.length t' <= 1.
Proof.
  assert (H : get_critical_path_result st_line ["a"; "b"]).
  { exists [["a"; "b"]]. split; [vm_compute; apply Permutation_refl|].
    split; [repeat constructor | reflexivity]. }
  split; [exact H|].
  destruct (proj2 (critical_path_spec st_line ["a"; "b"] H) ltac:(discriminate))
    as [a [t [Heq [_ [_ [_ [_ Hmax]]]]]]].
  injection Heq as _ <-. exact Hmax.
Defined.

Lemma existsb_eqb_in x l : existsb (String.eqb x) l = true <-> In x l.
Proof.
  rewrite existsb_exists. split.
  - intros [y [Hy He]]. apply String.eqb_eq in He. subst y. exact Hy.
  - intros H. exists x. split; [exact H | apply String.eqb_refl].
Qed.

Lemma export_loop_spec nodes_set records ns es :
  export_loop nodes_set records = (ns, es) ->
  map (fun e => (source e, target e)) es = records
  /\ NoDup (map node_id ns)
  /\ (forall n, In n ns -> node_label n = node_id n)
  /\ (forall x, In x (map node_id ns)
                <-> ~ In x nodes_set /\ exists a b, In (a, b) records /\ (x = a \/ x = b)).
Proof.
  revert nodes_set ns es. induction records as [|[f t] r IH]; intros set ns es H.
  - simpl in H. injection H as <- <-. split; [reflexivity|].
    split; [constructor|]. split; [intros _ []|]. intros x. simpl.
    split; [intros [] | intros [_ [a [b [[] _]]]]].
  - simpl in H.
    set (set1 := if negb (existsb (String.eqb f) set) then f :: set else set) in H.
    set (set2 := if negb (existsb (String.eqb t) set1) then t :: set1 else set1) in H.
    destruct (export_loop set2 r) as [ns' es'] eqn:Er. injection H as <- <-.
    destruct (IH set2 ns' es' Er) as [Hes [Hnd [Hlab Hmem]]].
    assert (Hf1 : In f set1).
    { unfold set1. destruct (existsb (String.eqb f) set) eqn:E; simpl;
        [apply existsb_eqb_in, E | left; reflexivity]. }
    assert (Hs1 : forall x, In x set -> In x set1).
    { intros x Hx. unfold set1. destruct (negb (existsb (String.eqb f) set)); [right|]; exact Hx. }
    assert (Ht2 : In t set2).
    { unfold set2. destruct (existsb (String.eqb t) set1) eqn:E; simpl;
        [apply existsb_eqb_in, E | left; reflexivity]. }
    assert (Hs2 : forall x, In x set1 -> In x set2).
    { intros x Hx. unfold set2. destruct (negb (existsb (String.eqb t) set1)); [right|]; exact Hx. }
    assert (Hnew : forall x, In x (map node_id
              ((if negb (existsb (String.eqb f) set) then [mk_json_node f f] else [])
               ++ (if negb (existsb (String.eqb t) set1) then [mk_json_node t t] else [])))
              <-> ~ In x set /\ In x set2 /\ ~ In x (map node_id ns')).
    { intros x. unfold set2, set1 in *.
      destruct (existsb (String.eqb f) set) eqn:E1; simpl in *.
      - destruct (existsb (String.eqb t) set) eqn:E2; simpl in *.
        + split; [intros []|]. intros [Hx [Hx2 _]]. exfalso. exact (Hx Hx2).
        + split.
          * intros [<- | []]. split; [intros Hin; apply existsb_eqb_in in Hin; congruence|].
            split; [left; reflexivity|]. intros Hin. apply Hmem in Hin.
            apply (proj1 Hin). left. reflexivity.
          * intros [Hx [[<- | Hx2] _]]; [left; reflexivity | contradiction].
      - destruct (String.eqb t f || existsb (String.eqb t) set) eqn:E2; simpl in *.
        + split.
          * intros [<- | []]. split; [intros Hin; apply existsb_eqb_in in Hin; congruence|].
            split; [left; reflexivity|]. intros Hin. apply Hmem in Hin.
            apply (proj1 Hin). left. reflexivity.
          * intros [Hx [[<- | Hx2] _]]; [left; reflexivity | contradiction].
        + split.
          * intros [<- | [<- | []]].
            -- split; [intros Hin; apply existsb_eqb_in in Hin; congruence|].
               split; [right; left; reflexivity|]. intros Hin. apply Hmem in Hin.
               apply (proj1 Hin). right. left. reflexivity.
            -- split; [intros Hin; apply orb_false_iff in E2;
                       destruct E2 as [_ E2]; apply existsb_eqb_in in Hin; congruence|].
               split; [left; reflexivity|]. intros Hin. apply Hmem in Hin.
               apply (proj1 Hin). left. reflexivity.
          * intros [Hx [[<- | [<- | Hx2]] _]]; [right; left; reflexivity
                                              | left; reflexivity | contradiction]. }
    split; [simpl; rewrite Hes; reflexivity|].
    split.
    + rewrite app_assoc, map_app.
      apply NoDup_app.
      * unfold set2, set1 in *.
        destruct (existsb (String.eqb f) set) eqn:E1; simpl.
        -- destruct (existsb (String.eqb t) set); simpl; repeat constructor; intros [].
        -- destruct (String.eqb t f || existsb (String.eqb t) set) eqn:E2; simpl;
             repeat constructor; simpl in *;
             repeat match goal with
             | H : _ \/ _ |- _ => destruct H
             | H : False |- _ => destruct H
             | H : t = f |- _ => subst t; rewrite String.eqb_refl in E2; discriminate
             | H : f = t |- _ => subst f; rewrite String.eqb_refl in E2; discriminate
             | |- ~ _ => intro
             end.
      * exact Hnd.
      * intros x Hx Hx'. apply Hnew in Hx. destruct Hx as [_ [_ Hx]]. contradiction.
    + split.
      * intros n Hn. apply in_app_or in Hn. destruct Hn as [Hn | Hn].
        -- destruct (negb (existsb (String.eqb f) set)); simpl in Hn;
             [destruct Hn as [<- | []]; reflexivity | contradiction].
        -- apply in_app_or in Hn. destruct Hn as [Hn | Hn]; [|apply Hlab, Hn].
           destruct (negb (existsb (String.eqb t) set1)); simpl in Hn;
             [destruct Hn as [<- | []]; reflexivity | contradiction].
      * intros x. rewrite app_assoc, map_app, in_app_iff, Hnew, Hmem. split.
        -- intros [[Hx [Hx2 _]] | [Hx [a [b [Hab He]]]]].
           ++ split; [exact Hx|].
              assert (In x set2 -> ~ In x set -> x = f \/ x = t) as Hft.
              { unfold set2, set1. intros H2 Hn.
                destruct (negb (existsb (String.eqb t) _)); simpl in H2;
                  [destruct H2 as [H2 | H2]; [right; auto|]|];
                  destruct (negb (existsb (String.eqb f) set)); simpl in H2;
                  try (destruct H2 as [H2 | H2]; [left; auto|]); contradiction. }
              exists f, t. split; [left; reflexivity | apply Hft; assumption].
           ++ split; [intros Hin; apply Hx, Hs2, Hs1, Hin|].
              exists a, b. split; [right; exact Hab | exact He].
        -- intros [Hx [a [b [[Hab | Hab] He]]]].
           ++ injection Hab as <- <-. left. split; [exact Hx|].
              split; [destruct He as [-> | ->]; [apply Hs2, Hf1 | exact Ht2]|].
              intros Hin. apply (proj1 Hin).
              destruct He as [-> | ->]; [apply Hs2, Hf1 | exact Ht2].
           ++ destruct (in_dec string_dec x set2) as [Hin2 | Hnin2].
              ** left. split; [exact Hx|]. split; [exact Hin2|].
                 intros Hin. exact (proj1 Hin Hin2).
              ** right. split; [exact Hnin2|]. exists a, b. auto.
Qed.

(** Extra (analyzer.py, [export_graph_json]): the exported edges are the
    query's records, one per record and in the same order; the exported
    nodes have distinct ids, each labelled with its own name, and they are
    exactly the names that occur as the source or target of some record. *)
Theorem export_graph_json_spec records ns es :
  export_graph_json records = (ns, es) ->
  map (fun e => (source e, target e)) es = records
  /\ NoDup (map node_id ns)
  /\ (forall n, In n ns -> node_label n = node_id n)
  /\ (forall x, In x (map node_id ns)
                <-> exists a b, In (a, b) records /\ (x = a \/ x = b)).
Proof.
  unfold export_graph_json. intros H.
  destruct (export_loop_spec [] records ns es H) as [H1 [H2 [H3 H4]]].
  split; [exact H1|]. split; [exact H2|]. split; [exact H3|].
  intros x. rewrite H4. split; [intros [_ Hx]; exact Hx | intros Hx; split; [intros []|exact Hx]].
Qed.

Lemma export_graph_json_spec_witness :
  exists ns es, export_graph_json [("a", "b"); ("b", "a"); ("a", "a")] = (ns, es)
                /\ NoDup (map node_id ns).
Proof.
  destruct (export_graph_json [("a", "b"); ("b", "a"); ("a", "a")]) as [ns es] eqn:E.
  exists ns, es. split; [reflexivity|].
  exact (proj1 (proj2 (export_graph_json_spec _ ns es E))).
Defined.

Lemma isolated_rows_in s x :
  In (Some x) (isolated_rows s)
  <-> In x (nodes s) /\ ~ exists a b, In (a, b) (edges s) /\ (x = a \/ x = b).
Proof.
  unfold isolated_rows. rewrite in_map_iff. split.
  - intros [y [Hy Hin]]. injection Hy as ->. apply filter_In in Hin.
    destruct Hin as [Hin Hn]. split; [exact Hin|]. intros [a [b [Hab He]]].
    apply negb_true_iff in Hn. rewrite <- not_true_iff_false in Hn. apply Hn.
    apply existsb_exists. exists (a, b). split; [exact Hab|]. simpl.
    apply orb_true_iff. destruct He as [-> | ->]; [left | right]; apply String.eqb_refl.
  - intros [Hin Hno]. exists x. split; [reflexivity|]. apply filter_In.
    split; [exact Hin|]. apply negb_true_iff, not_true_iff_false.
    intros Hex. apply existsb_exists in Hex. destruct Hex as [[a b] [Hab Hx]].
    apply Hno. exists a, b. split; [exact Hab|]. simpl in Hx.
    apply orb_true_iff in Hx. destruct Hx as [Hx | Hx]; apply String.eqb_eq in Hx; auto.
Qed.

Lemma touches_dec (es : list edge) x :
  {exists a b, In (a, b) es /\ (x = a \/ x = b)}
  + {~ exists a b, In (a, b) es /\ (x = a \/ x = b)}.
Proof.
  destruct (existsb (fun e => String.eqb (fst e) x || String.eqb (snd e) x) es) eqn:E.
  - left. apply existsb_exists in E. destruct E as [[a b] [Hab Hx]]. exists a, b.
    split; [exact Hab|]. simpl in Hx. apply orb_true_iff in Hx.
    destruct Hx as [Hx | Hx]; apply String.eqb_eq in Hx; auto.
  - right. intros [a [b [Hab He]]]. rewrite <- not_true_iff_false in E. apply E.
    apply existsb_exists. exists (a, b). split; [exact Hab|]. simpl.
    apply orb_true_iff. destruct He as [-> | ->]; [left | right]; apply String.eqb_refl.
Qed.

(** Extra (analyzer.py, [export_graph_json] on a store): when the records
    are the relationships of a well-formed store (one row per relationship,
    in any order), the exported edges are those relationships, and the
    exported nodes are exactly the store's nodes that are not isolated:
    a variable with no dependency in either direction is left out of the
    JSON graph. *)
Theorem export_graph_json_store s records ns es :
  Permutation (edges s) records -> store_wf s ->
  export_graph_json records = (ns, es) ->
  Permutation (map (fun e => (source e, target e)) es) (edges s)
  /\ (forall x, In x (map node_id ns)
                <-> In x (nodes s) /\ ~ In (Some x) (isolated_rows s)).
Proof.
  intros Hp [_ [_ Hends]] H.
  destruct (export_loop_spec [] records ns es H) as [H1 [_ [_ H4]]].
  split; [rewrite H1; apply Permutation_sym, Hp|].
  intros x. rewrite H4, isolated_rows_in. split.
  - intros [_ [a [b [Hab He]]]]. apply (Permutation_in _ (Permutation_sym Hp)) in Hab.
    split; [destruct He as [-> | ->]; apply (Hends a b Hab)|].
    intros [_ Hno]. apply Hno. exists a, b. auto.
  - intros [Hin Hnot]. destruct (touches_dec (edges s) x) as [Hy | Hn]; [|exfalso; apply Hnot; auto].
    destruct Hy as [a [b [Hab He]]]. split; [intros []|].
    exists a, b. split; [apply (Permutation_in _ Hp), Hab | exact He].
Qed.

Lemma export_graph_json_store_witness :
  exists ns es, export_graph_json (edges st_c2) = (ns, es)
    /\ forall x, In x (map node_id ns)
                 <-> In x (nodes st_c2) /\ ~ In (Some x) (isolated_rows st_c2).
Proof.
  assert (Hwf : store_wf st_c2).
  { split; [|split].
    - vm_compute. repeat constructor; simpl; intuition discriminate.
    - vm_compute. repeat constructor; simpl; intuition discriminate.
    - intros a b H. vm_compute in H.
      destruct H as [H | [H | [H | []]]]; injection H as <- <-; simpl; auto. }
  destruct (export_graph_json (edges st_c2)) as [ns es] eqn:E.
  exists ns, es. split; [reflexivity|].
  exact (proj2 (export_graph_json_store st_c2 (edges st_c2) ns es
                  (Permutation_refl _) Hwf E)).
Defined.

Lemma list_eqb_true l1 l2 : list_eqb l1 l2 = true <-> l1 = l2.
Proof.
  revert l2. induction l1 as [|x r1 IH]; intros [|y r2]; simpl;
    try (split; [discriminate | intros H; discriminate H]); [split; reflexivity|].
  rewrite andb_true_iff, String.eqb_eq, IH. split; [intros [-> ->]; reflexivity|].
  intros H. injection H as -> ->. auto.
Qed.

Lemma existsb_list_eqb k seen : existsb (list_eqb k) seen = true <-> In k seen.
Proof.
  rewrite existsb_exists. split.
  - intros [y [Hy He]]. apply list_eqb_true in He. subst y. exact Hy.
  - intros H. exists k. split; [exact H | apply list_eqb_true; reflexivity].
Qed.

Lemma unique_cycles_first seen cs c :
  In c (unique_cycles seen cs)
  <-> exists pre post, cs = pre ++ c :: post
        /\ ~ In (sort_by String.leb c) (map (sort_by String.leb) pre)
        /\ ~ In (sort_by String.leb c) seen.
Proof.
  revert seen. induction cs as [|c0 r IH]; intros seen; simpl.
  - split; [intros []|]. intros [pre [post [H _]]]. destruct pre; discriminate.
  - destruct (existsb (list_eqb (sort_by String.leb c0)) seen) eqn:E.
    + apply existsb_list_eqb in E. rewrite IH. split.
      * intros [pre [post [-> [H1 H2]]]]. exists (c0 :: pre), post.
        split; [reflexivity|]. split; [|exact H2].
        simpl. intros [H | H]; [rewrite H in E; contradiction | contradiction].
      * intros [pre [post [Heq [H1 H2]]]]. destruct pre as [|p0 pre].
        { injection Heq as <- _. contradiction. }
        injection Heq as <- ->. exists pre, post. simpl in H1.
        split; [reflexivity|]. split; [intros H; apply H1; right; exact H | exact H2].
    + assert (~ In (sort_by String.leb c0) seen) as E'.
      { intros H. apply existsb_list_eqb in H. congruence. }
      simpl. rewrite IH. split.
      * intros [<- | [pre [post [-> [H1 H2]]]]].
        -- exists [], r. auto.
        -- exists (c0 :: pre), post. split; [reflexivity|].
           simpl in H2 |- *. split; [intros [H | H]; auto | auto].
      * intros [pre [post [Heq [H1 H2]]]]. destruct pre as [|p0 pre].
        { injection Heq as <- _. left. reflexivity. }
        injection Heq as <- ->. right. exists pre, post. simpl in H1 |- *.
        split; [reflexivity|]. split; [intros H; apply H1; right; exact H|].
        intros [H | H]; [apply H1; left; exact H | exact (H2 H)].
Qed.

Lemma unique_cycles_keys seen cs :
  NoDup (map (sort_by String.leb) (unique_cycles seen cs))
  /\ forall c, In c (unique_cycles seen cs) -> ~ In (sort_by String.leb c) seen.
Proof.
  revert seen. induction cs as [|c r IH]; intros seen; simpl; [split; [constructor | intros _ []]|].
  destruct (existsb (list_eqb (sort_by String.leb c)) seen) eqn:E; [apply IH|].
  destruct (IH (sort_by String.leb c :: seen)) as [Hnd Hseen]. simpl. split.
  - constructor; [|exact Hnd]. intros Hin. apply in_map_iff in Hin.
    destruct Hin as [c' [Hk Hc']]. apply (Hseen c' Hc'). left. symmetry. exact Hk.
  - intros c' [<- | Hc'].
    + intros H. apply existsb_list_eqb in H. congruence.
    + intros H. apply (Hseen c' Hc'). right. exact H.
Qed.

(** Extra (analyzer.py, [detect_cycles], last loop): a cycle is reported
    exactly when it is the first, among the cycles of the first pass
    followed by those of [_tarjan_cycles], with its sorted list of names;
    so no two reported cycles have the same sorted names, and every cycle
    found is represented by one with the same names. *)
Theorem detect_cycles_dedup recs records c :
  (In c (detect_cycles recs records)
   <-> exists pre post, first_pass recs ++ tarjan_cycles records = pre ++ c :: post
         /\ ~ In (sort_by String.leb c) (map (sort_by String.leb) pre))
  /\ NoDup (map (sort_by String.leb) (detect_cycles recs records)).
Proof.
  unfold detect_cycles. split; [|apply unique_cycles_keys].
  rewrite unique_cycles_first. split.
  - intros [pre [post [H1 [H2 _]]]]. exists pre, post. auto.
  - intros [pre [post [H1 H2]]]. exists pre, post. split; [exact H1|].
    split; [exact H2 | intros []].
Qed.

Lemma reach_trans es a b c : reach es a b -> reach es b c -> reach es a c.
Proof.
  induction 1 as [a b H | a b d H _ IH]; intros Hc.
  - apply (reach_step _ _ _ _ H Hc).
  - apply (reach_step _ _ _ _ H (IH Hc)).
Qed.

Lemma walk_prefix es s l1 l2 : walk es s (l1 ++ l2) -> walk es s l1.
Proof.
  revert s. induction l1 as [|x r IH]; intros s H; simpl; [exact I|].
  simpl in H. destruct H as [H1 H2]. split; [exact H1 | apply (IH x H2)].
Qed.

Lemma closed_walk_reach es n t :
  walk es n t -> t <> [] -> path_end n t = n ->
  forall x, In x (n :: t) -> reach es n x /\ reach es x n.
Proof.
  intros Hw Hne He.
  assert (Hnn : reach es n n) by (rewrite <- He at 2; apply walk_reach; assumption).
  intros x [<- | Hx]; [split; exact Hnn|].
  apply in_split in Hx. destruct Hx as [q1 [q2 Hq]]. split.
  - replace x with (path_end n (q1 ++ [x])) by (unfold path_end; apply last_last).
    apply walk_reach; [destruct q1; discriminate|].
    apply (walk_prefix _ _ _ q2). rewrite <- app_assoc. simpl. rewrite <- Hq. exact Hw.
  - destruct q2 as [|y q2].
    + assert (x = n) as ->; [|exact Hnn].
      rewrite <- He. unfold path_end. rewrite Hq, last_last. reflexivity.
    + assert (path_end x (y :: q2) = n) as Hx.
      { rewrite <- He. unfold path_end. rewrite Hq, last_app_nonempty by discriminate.
        symmetry. apply last_cons_nonempty. discriminate. }
      rewrite <- Hx. apply walk_reach; [discriminate|].
      apply (walk_app es n q1). rewrite <- Hq. exact Hw.
Qed.

Lemma scan_cycle_extends u c u' :
  scan_cycle u c = Some u' -> NoDup u ->
  NoDup u' /\ exists v, u' = u ++ v /\ incl v c.
Proof.
  revert u. induction c as [|x r IH]; intros u H Hn; simpl in H; [discriminate|].
  destruct (existsb (String.eqb x) u) eqn:E; simpl in H.
  - assert (Hr : (NoDup u' /\ exists v, u' = u ++ v /\ incl v r) ->
                 NoDup u' /\ exists v, u' = u ++ v /\ incl v (x :: r)).
    { intros [Hn' [v [Hv Hi]]]. split; [exact Hn'|]. exists v. split; [exact Hv|].
      intros y Hy. right. apply Hi, Hy. }
    destruct u as [|u0 [|u1 us]]; try (apply Hr, (IH _ H Hn)).
    destruct (String.eqb x u0); [|apply Hr, (IH _ H Hn)].
    injection H as <-. split; [exact Hn|]. exists []. rewrite app_nil_r.
    split; [reflexivity | intros y []].
  - assert (NoDup (u ++ [x])) as Hn1.
    { apply NoDup_app; [exact Hn | repeat constructor; intros [] |].
      intros y Hy [<- | []]. rewrite <- not_true_iff_false in E. apply E.
      apply existsb_eqb_in, Hy. }
    destruct (IH _ H Hn1) as [Hn' [v [Hv Hi]]]. split; [exact Hn'|].
    exists (x :: v). rewrite Hv, <- app_assoc. split; [reflexivity|].
    intros y [<- | Hy]; [left; reflexivity | right; apply Hi, Hy].
Qed.

Lemma cycle_rows_in s row :
  In row (cycle_rows s)
  <-> exists n t, row = n :: t /\ In n (nodes s) /\ trail (edges s) n t
                  /\ path_end n t = n.
Proof.
  unfold cycle_rows. rewrite in_flat_map. split.
  - intros [n [Hn Hr]]. apply in_map_iff in Hr. destruct Hr as [t [<- Ht]].
    apply filter_In in Ht. destruct Ht as [Ht He]. apply String.eqb_eq in He.
    apply var_trails_iff in Ht. exists n, t. auto.
  - intros [n [t [-> [Hn [Ht He]]]]]. exists n. split; [exact Hn|].
    apply in_map, filter_In. split; [apply var_trails_iff, Ht | apply String.eqb_eq, He].
Qed.

(** Extra (analyzer.py, [detect_cycles], first pass): every cycle the loop
    over the query records appends is a list of at least two distinct
    variables, starting with a variable of the graph, and any two of its
    variables depend on each other through [DEPENDS_ON] paths: they lie on
    a common cycle of the graph. *)
Theorem first_pass_cycles_sound s recs u :
  cycle_query_result s recs -> In u (first_pass recs) ->
  NoDup u /\ 2 <= List.length u
  /\ (exists n, hd_error u = Some n /\ In n (nodes s))
  /\ forall x y, In x u -> In y u -> reach (edges s) x y.
Proof.
  intros [full [Hp ->]] Hu. unfold first_pass in Hu. apply in_flat_map in Hu.
  destruct Hu as [row [Hrow Hu]].
  destruct (scan_cycle [] row) as [u'|] eqn:Es; [|destruct Hu].
  destruct Hu as [<- | []].
  apply in_firstn in Hrow. apply (Permutation_in _ (Permutation_sym Hp)) in Hrow.
  apply cycle_rows_in in Hrow. destruct Hrow as [n [t [-> [Hn [Ht He]]]]].
  pose proof (scan_cycle_len _ _ _ Es) as Hlen.
  simpl in Es. destruct (scan_cycle_extends _ _ _ Es ltac:(repeat constructor; intros []))
    as [Hnd [v [Hv Hi]]].
  split; [exact Hnd|]. split; [exact Hlen|]. split; [exists n; rewrite Hv; auto|].
  assert (Hall : forall x, In x u' -> reach (edges s) n x /\ reach (edges s) x n).
  { intros x Hx. apply (closed_walk_reach _ n t); [apply trail_walk, Ht | apply Ht | exact He|].
    rewrite Hv in Hx. destruct Hx as [<- | Hx]; [left; reflexivity | right; apply Hi, Hx]. }
  intros x y Hx Hy. apply (reach_trans _ x n y); [apply Hall, Hx | apply Hall, Hy].
Qed.

Lemma first_pass_cycles_sound_witness :
  cycle_query_result st_c2 [["a"; "b"; "a"]; ["b"; "a"; "b"]]
  /\ forall x y, In x ["a"; "b"] -> In y ["a"; "b"] -> reach (edges st_c2) x y.
Proof.
  assert (H : cycle_query_result st_c2 [["a"; "b"; "a"]; ["b"; "a"; "b"]]).
  { exists [["a"; "b"; "a"]; ["b"; "a"; "b"]].
    split; [vm_compute; apply Permutation_refl | reflexivity]. }
  split; [exact H|].
  exact (proj2 (proj2 (proj2 (first_pass_cycles_sound st_c2 _ ["a"; "b"] H
                                  (or_introl eq_refl))))).
Defined.

(** ** Path enumeration: the answer of [find_path] *)

Lemma reach_walk es a b :
  reach es a b -> exists t, t <> [] /\ walk es a t /\ path_end a t = b.
Proof.
  unfold path_end. induction 1 as [a b H | a b c H _ [t [Hne [Hw He]]]].
  - exists [b]. split; [discriminate|]. split; [simpl; auto | reflexivity].
  - exists (b :: t). split; [discriminate|]. split; [split; assumption|].
    rewrite last_cons_nonempty by exact Hne. exact He.
Qed.

Lemma reach_trail es a b :
  reach es a b -> exists t, trail es a t /\ path_end a t = b.
Proof.
  intros Hr. destruct (reach_walk _ _ _ Hr) as [t [Hne [Hw He]]].
  destruct (walk_shorten _ _ _ Hw Hne) as [t' [Hne' [Hw' [Hn' [He' _]]]]].
  exists t'. split; [apply trail_of_simple; assumption | rewrite He'; exact He].
Qed.

(** C8: [find_path] always answers with a list (never an error); the list
    is empty when [to] is not reachable from [from], in particular when
    [from = to] and no cycle passes through it; otherwise it holds at most
    20 paths from [from] to [to], in order of non-decreasing edge count.
    When [to] is reachable the list is not empty: it holds
    [min 20 (number of paths)] paths, and when fewer than 20 come back it
    holds every path from [from] to [to] that uses each relationship at
    most once. *)
Theorem find_path_spec s a b :
  (exists paths, find_path_result s a b paths)
  /\ forall paths, find_path_result s a b paths ->
     (~ reach (edges s) a b -> paths = [])
     /\ (a = b -> ~ reach (edges s) a a -> paths = [])
     /\ List.length paths <= 20
     /\ Sorted (fun p q => List.length p <= List.length q) paths
     /\ (forall p, In p paths ->
           exists t, p = a :: t /\ t <> [] /\ walk (edges s) a t
                     /\ path_end a t = b)
     /\ (reach (edges s) a b -> paths <> [])
     /\ List.length paths = Nat.min 20 (List.length (path_rows (edges s) a b))
     /\ (List.length paths < 20 ->
         forall t, trail (edges s) a t -> path_end a t = b -> In (a :: t) paths).
Proof.
  split.
  - exists (firstn 20 (sort_by (fun p q => Nat.leb (List.length p) (List.length q))
                         (path_rows (edges s) a b))).
    exists (sort_by (fun p q => Nat.leb (List.length p) (List.length q))
              (path_rows (edges s) a b)).
    split; [symmetry; apply sort_by_perm|]. split; [|reflexivity].
    apply sort_by_sorted; intros p q H;
      [apply Nat.leb_le, H | apply Nat.leb_gt in H; lia].
  - intros paths [full [Hp [Hs ->]]].
    assert (forall p, In p (firstn 20 full) ->
              exists t, p = a :: t /\ t <> [] /\ walk (edges s) a t
                        /\ path_end a t = b) as Hends.
    { intros p Hin. apply in_firstn in Hin.
      apply (Permutation_in _ (Permutation_sym Hp)), path_rows_in in Hin.
      destruct Hin as [t [-> [Ht He]]]. exists t.
      split; [reflexivity|]. split; [apply Ht|]. split; [apply trail_walk, Ht | exact He]. }
    assert (~ reach (edges s) a b -> firstn 20 full = []) as Hun.
    { intros Hnr. destruct (firstn 20 full) as [|p r] eqn:E; [reflexivity|].
      exfalso. destruct (Hends p (or_introl eq_refl)) as [t [_ [Hne [Hw He]]]].
      apply Hnr. rewrite <- He. apply walk_reach; assumption. }
    split; [exact Hun|]. split; [intros <-; exact Hun|].
    split; [apply firstn_le_length|]. split; [apply sorted_firstn, Hs|].
    split; [exact Hends|]. split.
    + intros Hr. destruct (reach_trail _ _ _ Hr) as [t [Ht He]].
      assert (In (a :: t) full) as Hin.
      { apply (Permutation_in _ Hp), path_rows_in. exists t. auto. }
      destruct full as [|q full']; [destruct Hin | discriminate].
    + split; [rewrite length_firstn, (Permutation_length Hp); reflexivity|].
      intros Hl t Ht He. rewrite length_firstn in Hl.
      rewrite firstn_all2 by lia. apply (Permutation_in _ Hp), path_rows_in.
      exists t. auto.
Qed.

Lemma find_path_spec_witness :
  (exists paths, find_path_result st_line "a" "a" paths /\ paths = [])
  /\ (exists paths, find_path_result st_line "a" "b" paths /\ paths <> []).
Proof.
  assert (Hnr : ~ reach (edges st_line) "a" "a").
  { intros H. inversion H as [x y Hxy | x y z Hxy Hyz]; subst;
      simpl in Hxy; destruct Hxy as [Hxy | []]; inversion Hxy; subst.
    inversion Hyz as [x' y' Hxy' | x' y' z' Hxy' _]; subst;
      simpl in Hxy'; destruct Hxy' as [Hxy' | []]; inversion Hxy'. }
  split.
  - destruct (proj1 (find_path_spec st_line "a" "a")) as [paths Hp].
    exists paths. split; [exact Hp|].
    exact (proj1 (proj2 (proj2 (find_path_spec st_line "a" "a") paths Hp)) eq_refl Hnr).
  - destruct (proj1 (find_path_spec st_line "a" "b")) as [paths Hp].
    exists paths. split; [exact Hp|].
    apply (proj1 (proj2 (proj2 (proj2 (proj2 (proj2
             (proj2 (find_path_spec st_line "a" "b") paths Hp)))))));
      apply reach_one; simpl; auto.
Defined.
